(** * Conway's Game of Life: the refactored domain model, rules and engine

    The program is the Python code of the refactoring plan
    (Tasks 2.2, 2.3, 3.1 and 3.3) and of the phase summaries: the value
    objects [Cell], [Position], [GridSize] and [Generation], the
    first-class collection [Grid] (a [Dict[Position, Cell]] with a
    [GridSize]), the static [GameRules.calculate_next_state] and the
    [GameEngine] with [step] and [run].  Around them: the neighbour count
    of game_of_life.py before the refactoring, the old class delegating its
    run to the engine, the random seeding of main.py and the rendering of
    the grid by the console display.

    Python [int] is unbounded, so rows, columns, counts and generation
    numbers are [Z].  The dictionary of a grid is a [gmap]; the mutable
    objects ([Grid], [GameEngine]) are threaded through a small state and
    exception monad, so that what a raising call leaves behind is explicit. *)

From Stdlib Require Import ZArith Lia PrimFloat.
From stdpp Require Import base decidable countable list gmap fin_maps strings pretty.

Local Open Scope Z_scope.

(** ** domain/cell.py *)

Record Cell : Type := mkCell { alive : bool }.

Definition alive_cell : Cell := mkCell true.
Definition dead_cell : Cell := mkCell false.
Definition is_alive (c : Cell) : bool := alive c.
Definition is_dead (c : Cell) : bool := negb (alive c).

#[global] Instance Cell_eq_dec : EqDecision Cell.
Proof. solve_decision. Defined.

(** ** domain/position.py *)

Record Position : Type := mkPosition { row : Z; col : Z }.

#[global] Instance Position_eq_dec : EqDecision Position.
Proof. solve_decision. Defined.

(** The frozen dataclass hashes and compares by its fields, which is what
    makes it usable as a dictionary key. *)
#[global] Instance Position_countable : Countable Position.
Proof.
  refine (inj_countable' (fun p => (row p, col p))
                         (fun rc => mkPosition rc.1 rc.2) _).
  intros [r c]. reflexivity.
Defined.

(** [[-1, 0, 1]], the offsets both comprehension clauses range over. *)
Definition offsets : list Z := [-1; 0; 1].

(** [[Position(self.row + dr, self.col + dc) for dr in [-1, 0, 1]
      for dc in [-1, 0, 1] if not (dr == 0 and dc == 0)]] *)
Definition neighbors (self : Position) : list Position :=
  dr ← offsets;
  dc ← offsets;
  if negb ((dr =? 0) && (dc =? 0))
  then [mkPosition (row self + dr) (col self + dc)]
  else [].

(** [f"({self.row}, {self.col})"] *)
Definition Position_str (self : Position) : string :=
  "(" +:+ pretty (row self) +:+ ", " +:+ pretty (col self) +:+ ")".

(** ** domain/grid_size.py *)

Record GridSize : Type := mkGridSize { width : Z; height : Z }.

#[global] Instance GridSize_eq_dec : EqDecision GridSize.
Proof. solve_decision. Defined.

(** [0 <= position.row < self.height and 0 <= position.col < self.width] *)
Definition contains (self : GridSize) (position : Position) : bool :=
  ((0 <=? row position) && (row position <? height self)) &&
  ((0 <=? col position) && (col position <? width self)).

(** Python's [range(n)]: [0, 1, ..., n-1], empty when [n <= 0]. *)
Definition range (n : Z) : list Z := Z.of_nat <$> seq 0 (Z.to_nat n).

(** [[Position(row, col) for row in range(self.height)
      for col in range(self.width)]] *)
Definition all_positions (self : GridSize) : list Position :=
  r ← range (height self);
  c ← range (width self);
  [mkPosition r c].

(** ** domain/generation.py *)

Record Generation : Type := mkGeneration { number : Z }.

Definition next (self : Generation) : Generation :=
  mkGeneration (number self + 1).

(** ** rules/game_rules.py *)

(** Python's [x in [a, b, ...]] on integers. *)
Definition py_in (x : Z) (l : list Z) : bool := existsb (Z.eqb x) l.

Definition calculate_next_state (current_cell : Cell) (living_neighbors : Z)
  : Cell :=
  if is_alive current_cell then
    if py_in living_neighbors [2; 3] then alive_cell else dead_cell
  else
    if living_neighbors =? 3 then alive_cell else dead_cell.

(** ** Exceptions and mutable objects

    A method of a mutable object is a function from the object's state to
    an outcome and the state it leaves.  [Unfinished] marks a computation
    whose [while True] loop was still going when the fuel given to it ran
    out; it is not an exception and no [except] clause sees it. *)

Inductive Exception : Type :=
| ValueError (message : string)
| KeyboardInterrupt.

#[global] Instance Exception_eq_dec : EqDecision Exception.
Proof. solve_decision. Defined.

Inductive Outcome (A : Type) : Type :=
| Returned (a : A)
| Raised (e : Exception)
| Unfinished.
Arguments Returned {A} a.
Arguments Raised {A} e.
Arguments Unfinished {A}.

Record M (S A : Type) : Type := mkM { runM : S -> Outcome A * S }.
Arguments mkM {S A} _.
Arguments runM {S A} _ _.

Section Monad.
Context {S : Type}.

#[global] Instance M_ret : MRet (M S) :=
  fun A a => mkM (fun s => (Returned a, s)).

#[global] Instance M_bind : MBind (M S) :=
  fun A B k m => mkM (fun s =>
    match runM m s with
    | (Returned a, s') => runM (k a) s'
    | (Raised e, s') => (Raised e, s')
    | (Unfinished, s') => (Unfinished, s')
    end).

Definition raise {A} (e : Exception) : M S A := mkM (fun s => (Raised e, s)).
Definition unfinished {A} : M S A := mkM (fun s => (Unfinished, s)).
Definition get : M S S := mkM (fun s => (Returned s, s)).
Definition put (s : S) : M S unit := mkM (fun _ => (Returned tt, s)).
Definition modify (f : S -> S) : M S unit := mkM (fun s => (Returned tt, f s)).

(** [for x in xs: body(x)] *)
Fixpoint for_each {A} (xs : list A) (body : A -> M S unit) : M S unit :=
  match xs with
  | [] => mret tt
  | x :: xs' => body x;; for_each xs' body
  end.

(** [while True: body()], cut after [fuel] iterations. *)
Fixpoint while_true (fuel : nat) (body : M S unit) : M S unit :=
  match fuel with
  | O => unfinished
  | Datatypes.S fuel' => body;; while_true fuel' body
  end.

(** [try: m  except KeyboardInterrupt: handler()] *)
Definition try_except_KeyboardInterrupt {A} (m handler : M S A) : M S A :=
  mkM (fun s =>
    match runM m s with
    | (Raised KeyboardInterrupt, s') => runM handler s'
    | r => r
    end).
End Monad.

(** ** domain/grid.py *)

Record Grid : Type := mkGrid { _size : GridSize; _cells : gmap Position Cell }.

(** [self._cells[position] = cell] *)
Definition store_cell (position : Position) (cell : Cell) (self : Grid) : Grid :=
  mkGrid (_size self) (<[position := cell]> (_cells self)).

Definition _initialize_empty : M Grid unit :=
  self ← get;
  for_each (all_positions (_size self))
    (fun position => modify (store_cell position dead_cell)).

(** [Grid(size)]: the object as [__init__] leaves it. *)
Definition Grid_init (size : GridSize) : Grid :=
  (runM _initialize_empty (mkGrid size ∅)).2.

Definition set_cell (position : Position) (cell : Cell) : M Grid unit :=
  self ← get;
  if negb (contains (_size self) position)
  then raise (ValueError ("Position " +:+ Position_str position +:+ " out of bounds"))
  else modify (store_cell position cell).

(** [self._cells.get(position, Cell.dead_cell())] behind the bounds guard. *)
Definition get_cell (self : Grid) (position : Position) : Cell :=
  if negb (contains (_size self) position)
  then dead_cell
  else default dead_cell (_cells self !! position).

(** [sum(1 for neighbor in ... if ...)] *)
Definition py_sum (l : list Z) : Z := foldl Z.add 0 l.

Definition count_living_neighbors (self : Grid) (position : Position) : Z :=
  py_sum ((fun _ => 1) <$>
          filter (fun neighbor =>
                    contains (_size self) neighbor
                    && is_alive (get_cell self neighbor) = true)
                 (neighbors position)).

(** [{pos for pos, cell in self._cells.items() if cell.is_alive()}] *)
Definition living_cells (self : Grid) : gset Position :=
  dom (filter (fun pc => is_alive pc.2 = true) (_cells self)).

Definition size (self : Grid) : GridSize := _size self.

(** ** config/game_config.py *)

Record GameConfig : Type := mkGameConfig {
  grid_size : Z;
  alive_char : string;
  dead_char : string;
  delay : float;
  initial_density : float;
  clear_command : string
}.

(** ** engine/game_engine.py *)

(** The engine's [rules] and [display] attributes are stateless
    collaborators; what [step] and [run] read and assign is below. *)
Record GameEngine : Type := mkGameEngine {
  grid : Grid;
  generation : Generation;
  config : GameConfig
}.

(** [GameEngine(grid, config)] *)
Definition GameEngine_init (grid : Grid) (config : GameConfig) : GameEngine :=
  mkGameEngine grid (mkGeneration 0) config.

(** Run a block on a local object and hand back the object it leaves. *)
Definition with_local {S L A} (l : L) (m : M L A) : M S L :=
  mkM (fun s =>
    match runM m l with
    | (Returned _, l') => (Returned l', s)
    | (Raised e, _) => (Raised e, s)
    | (Unfinished, _) => (Unfinished, s)
    end).

Definition _calculate_next_generation : M GameEngine Grid :=
  self ← get;
  with_local (Grid_init (size (grid self)))
    (for_each (all_positions (size (grid self))) (fun position =>
       let current_cell := get_cell (grid self) position in
       let neighbor_count := count_living_neighbors (grid self) position in
       let next_cell := calculate_next_state current_cell neighbor_count in
       set_cell position next_cell)).

Definition step : M GameEngine unit :=
  new_grid ← _calculate_next_generation;
  modify (fun self => mkGameEngine new_grid (generation self) (config self));;
  modify (fun self => mkGameEngine (grid self) (next (generation self)) (config self)).

(** What the engine calls outside itself: the display and the clock. *)
Inductive ExternalCall : Type :=
| Render (grid : Grid) (generation : Generation)
| Sleep (seconds : float)
| ShowExitMessage (generation : Generation).

(** The engine together with its surroundings: the calls made so far, in
    order, and the user's Ctrl+C.  The loop spends its time blocked in
    [render] and [sleep], and the key press is taken to arrive during one
    of these calls: [ctrl_c = Some k] says that it arrives during the
    external call after [k] more; [None], that it never does. *)
Record World : Type := mkWorld {
  engine : GameEngine;
  calls : list ExternalCall;
  ctrl_c : option nat
}.

(** An external call is recorded when it is made; it raises
    [KeyboardInterrupt] when the key is pressed during it. *)
Definition external (c : ExternalCall) : M World unit :=
  mkM (fun w =>
    match ctrl_c w with
    | Some O => (Raised KeyboardInterrupt, mkWorld (engine w) (calls w ++ [c]) None)
    | Some (Datatypes.S k) => (Returned tt, mkWorld (engine w) (calls w ++ [c]) (Some k))
    | None => (Returned tt, mkWorld (engine w) (calls w ++ [c]) None)
    end).

(** A method of the engine, run inside the world. *)
Definition on_engine {A} (m : M GameEngine A) : M World A :=
  mkM (fun w =>
    let '(r, e) := runM m (engine w) in (r, mkWorld e (calls w) (ctrl_c w))).

Definition run_iteration : M World unit :=
  self ← on_engine get;
  external (Render (grid self) (generation self));;
  external (Sleep (delay (config self)));;
  on_engine step.

Definition run (fuel : nat) : M World unit :=
  try_except_KeyboardInterrupt
    (while_true fuel run_iteration)
    (self ← on_engine get;
     external (ShowExitMessage (generation self))).

(** ** The code before the refactoring, and the grid of the analysis

    game_of_life.py decides a cell inline on booleans
    ([new_grid[row][col] = neighbors in [2, 3]] for a live cell, and
    [neighbors == 3] for a dead one); the analysis sketches the grid with a
    membership test in place of [get_cell]. *)

Module Legacy.
Definition next_alive (is_alive : bool) (neighbors : Z) : bool :=
  if is_alive then py_in neighbors [2; 3] else neighbors =? 3.
End Legacy.

Module Analysis.
(** [position in self._cells and self._cells[position].is_alive()] *)
Definition is_alive (self : Grid) (position : Position) : bool :=
  match _cells self !! position with
  | Some cell => alive cell
  | None => false
  end.

Definition count_living_neighbors (self : Grid) (position : Position) : Z :=
  py_sum ((fun _ => 1) <$>
          filter (fun neighbor =>
                    contains (_size self) neighbor
                    && is_alive self neighbor = true)
                 (neighbors position)).
End Analysis.

(** ** Notions the properties are stated with *)

(** The engine a call to [step] leaves, and after [n] calls. *)
Definition after_step (e : GameEngine) : GameEngine := (runM step e).2.
Definition steps (n : nat) (e : GameEngine) : GameEngine := Nat.iter n after_step e.

(** Seeding as main.py does it: a fresh grid, then [set_cell] to alive at
    each of the given positions. *)
Definition seed (size : GridSize) (cells : list Position) : Outcome unit * Grid :=
  runM (for_each cells (fun position => set_cell position alive_cell))
       (Grid_init size).
Definition grid_with (size : GridSize) (cells : list Position) : Grid :=
  (seed size cells).2.

(** Three cells in a row, and in a column, around [(r, c)]. *)
Definition horizontal_line (r c : Z) : list Position :=
  [mkPosition r (c - 1); mkPosition r c; mkPosition r (c + 1)].
Definition vertical_line (r c : Z) : list Position :=
  [mkPosition (r - 1) c; mkPosition r c; mkPosition (r + 1) c].

(** Every position of the grid holds a dead cell. *)
Definition all_dead (g : Grid) : bool :=
  forallb (fun p => is_dead (get_cell g p)) (all_positions (size g)).

(** Where a position of the grid lies: in the first or last row, in the
    first or last column. *)
Definition on_row_border (gs : GridSize) (p : Position) : bool :=
  (row p =? 0) || (row p =? height gs - 1).
Definition on_col_border (gs : GridSize) (p : Position) : bool :=
  (col p =? 0) || (col p =? width gs - 1).
Definition is_corner (gs : GridSize) (p : Position) : bool :=
  contains gs p && on_row_border gs p && on_col_border gs p.
Definition is_edge (gs : GridSize) (p : Position) : bool :=
  contains gs p && xorb (on_row_border gs p) (on_col_border gs p).
Definition is_interior (gs : GridSize) (p : Position) : bool :=
  contains gs p && negb (on_row_border gs p) && negb (on_col_border gs p).

(** The neighbours of a position that lie inside the grid. *)
Definition in_bounds_neighbors (gs : GridSize) (p : Position) : list Position :=
  filter (fun n => contains gs n = true) (neighbors p).

(** What one neighbour adds to the count of living neighbours. *)
Definition contribution (g : Grid) (n : Position) : Z :=
  if contains (size g) n && is_alive (get_cell g n) then 1 else 0.

(** The cell [_calculate_next_generation] computes for a position. *)
Definition next_cell (g : Grid) (position : Position) : Cell :=
  calculate_next_state (get_cell g position) (count_living_neighbors g position).

(** What one pass of the loop of [run] calls from engine [e], and what [n]
    passes call. *)
Definition iteration_calls (e : GameEngine) : list ExternalCall :=
  [Render (grid e) (generation e); Sleep (delay (config e))].
Fixpoint loop_calls (n : nat) (e : GameEngine) : list ExternalCall :=
  match n with
  | O => []
  | S n' => iteration_calls e ++ loop_calls n' (after_step e)
  end.

(** A configuration and a seeded engine to run the model on: a 5 x 5 grid
    with three cells alive in the middle row. *)
Definition example_config : GameConfig :=
  mkGameConfig 5 "#" " " 0.125%float 0.25%float "clear".
Definition example_engine : GameEngine :=
  GameEngine_init (grid_with (mkGridSize 5 5) (horizontal_line 2 2)) example_config.

(** The dictionary of a grid holds a cell for each position of its size and
    for no other, as [Grid(size)] sets it up. *)
Definition well_formed (g : Grid) : Prop :=
  forall p, is_Some (_cells g !! p) <-> contains (size g) p = true.

(** ** Patterns on the plane

    What the rule makes of a finite list of living cells when nothing cuts
    the neighbourhoods off, and a check that one list evolves to another:
    the cells of both lie in the rectangle from row [r0] to [r1] and column
    [c0] to [c1], and the rule gives the second list at every position of
    the rectangle one larger on each side.  Outside of it no position has a
    living neighbour. *)

Definition lives_next (cells : list Position) (p : Position) : Cell :=
  calculate_next_state
    (mkCell (bool_decide (p ∈ cells)))
    (foldr (fun n acc => (if bool_decide (n ∈ cells) then 1 else 0) + acc)
           0 (neighbors p)).

Definition translate (dr dc : Z) (p : Position) : Position :=
  mkPosition (row p + dr) (col p + dc).

Definition in_box (r0 r1 c0 c1 : Z) (p : Position) : bool :=
  (r0 <=? row p) && (row p <=? r1) && (c0 <=? col p) && (col p <=? c1).

Definition box (r0 r1 c0 c1 : Z) : list Position :=
  r ← seqZ r0 (r1 - r0 + 1);
  c ← seqZ c0 (c1 - c0 + 1);
  [mkPosition r c].

Definition evolves_to (cells cells' : list Position) (r0 r1 c0 c1 : Z) : bool :=
  forallb (in_box r0 r1 c0 c1) cells
  && forallb (in_box r0 r1 c0 c1) cells'
  && forallb (fun p => bool_decide (lives_next cells p = mkCell (bool_decide (p ∈ cells'))))
             (box (r0 - 1) (r1 + 1) (c0 - 1) (c1 + 1)).

(** The patterns of the golden master tests, with their top left corner at
    the origin: the block and the beehive, and the glider with the three
    shapes it passes through before it has moved one cell down and right. *)
Definition block : list Position :=
  [mkPosition 0 0; mkPosition 0 1; mkPosition 1 0; mkPosition 1 1].
Definition beehive : list Position :=
  [mkPosition 0 1; mkPosition 0 2; mkPosition 1 0; mkPosition 1 3;
   mkPosition 2 1; mkPosition 2 2].
Definition glider : list Position :=
  [mkPosition 0 1; mkPosition 1 2; mkPosition 2 0; mkPosition 2 1; mkPosition 2 2].
Definition glider_1 : list Position :=
  [mkPosition 1 0; mkPosition 1 2; mkPosition 2 1; mkPosition 2 2; mkPosition 3 1].
Definition glider_2 : list Position :=
  [mkPosition 1 2; mkPosition 2 0; mkPosition 2 2; mkPosition 3 1; mkPosition 3 2].
Definition glider_3 : list Position :=
  [mkPosition 1 1; mkPosition 2 2; mkPosition 2 3; mkPosition 3 1; mkPosition 3 2].

(** The four corners of a grid. *)
Definition corners (gs : GridSize) : list Position :=
  [mkPosition 0 0; mkPosition 0 (width gs - 1);
   mkPosition (height gs - 1) 0; mkPosition (height gs - 1) (width gs - 1)].

(** ** game_of_life.py before the domain objects

    The grid is a list of rows of booleans and the size a class constant;
    reading a row or a cell that the lists do not have raises
    [IndexError], here [None]. *)

Module Original.

Record GameOfLife : Type := mkGameOfLife {
  GRID_SIZE : Z;
  grid : list (list bool);
  generation : Z
}.

(** [l[i]], where a negative index counts from the end. *)
Definition index {A} (l : list A) (i : Z) : option A :=
  if i <? 0
  then (if - i <=? Z.of_nat (length l)
        then l !! Z.to_nat (Z.of_nat (length l) + i) else None)
  else l !! Z.to_nat i.

(** [for x in xs: count = body(x, count)], stopping at an exception. *)
Fixpoint for_count {A} (xs : list A) (body : A -> Z -> option Z) (count : Z)
  : option Z :=
  match xs with
  | [] => Some count
  | x :: xs' => count' ← body x count; for_count xs' body count'
  end.

Definition _count_neighbors (self : GameOfLife) (row col : Z) : option Z :=
  for_count [-1; 0; 1] (fun dr count =>
    for_count [-1; 0; 1] (fun dc count =>
      if (dr =? 0) && (dc =? 0) then Some count
      else
        let neighbor_row := row + dr in
        let neighbor_col := col + dc in
        if (0 <=? neighbor_row) && (neighbor_row <? GRID_SIZE self)
           && ((0 <=? neighbor_col) && (neighbor_col <? GRID_SIZE self))
        then
          cells ← index (grid self) neighbor_row;
          cell ← index cells neighbor_col;
          Some (if cell : bool then count + 1 else count)
        else Some count) count) 0.

End Original.

(** A grid object holds what the lists of the original game hold: it has
    the size of the class constant, both ways, and at each of its positions
    the lists have the boolean that the cell reads. *)
Definition mirrors (g : Grid) (game : Original.GameOfLife) : bool :=
  bool_decide (size g = mkGridSize (Original.GRID_SIZE game) (Original.GRID_SIZE game))
  && forallb (fun p =>
                bool_decide (Original.index (Original.grid game) (row p)
                               ≫= (fun cells => Original.index cells (col p))
                             = Some (is_alive (get_cell g p))))
             (all_positions (size g)).

Definition example_game : Original.GameOfLife :=
  Original.mkGameOfLife 3 [[true; false; true]; [false; true; true]; [false; false; false]] 0.
Definition example_grid : Grid :=
  grid_with (mkGridSize 3 3)
            [mkPosition 0 0; mkPosition 0 2; mkPosition 1 1; mkPosition 1 2].

(** ** main.py *)

(** The state of [random]: the values [random.random()] returns, in order,
    and how many of them have been drawn. *)
Record Rng : Type := mkRng { draws : nat -> float; drawn : nat }.

Definition random_random : M Rng float :=
  mkM (fun rng => (Returned (draws rng (drawn rng)),
                   mkRng (draws rng) (S (drawn rng)))).

(** A method of one of two objects, run on the pair. *)
Definition on_fst {S T A} (m : M S A) : M (S * T) A :=
  mkM (fun st => let '(r, s) := runM m st.1 in (r, (s, st.2))).
Definition on_snd {S T A} (m : M T A) : M (S * T) A :=
  mkM (fun st => let '(r, t) := runM m st.2 in (r, (st.1, t))).

(** The loop of [create_random_grid], on the generator and the new grid. *)
Definition fill_randomly (config : GameConfig) (size : GridSize) : M (Rng * Grid) unit :=
  for_each (all_positions size) (fun position =>
    x ← on_fst random_random;
    if PrimFloat.ltb x (initial_density config)
    then on_snd (set_cell position alive_cell)
    else mret tt).

Definition create_random_grid (config : GameConfig) : M Rng Grid :=
  let size := mkGridSize (grid_size config) (grid_size config) in
  mkM (fun rng =>
    match runM (fill_randomly config size) (rng, Grid_init size) with
    | (Returned _, (rng', grid)) => (Returned grid, rng')
    | (Raised e, (rng', _)) => (Raised e, rng')
    | (Unfinished, (rng', _)) => (Unfinished, rng')
    end).

(** ** display/console_display.py

    Standard output is the text written so far.  Of the display only the
    grid is rendered here: the header formats the generation object with a
    width, which the listing of [Generation] does not define. *)

Definition newline : string := String (Ascii.ascii_of_nat 10) EmptyString.

(** [print(text, end=end)] *)
Definition print (text end_ : string) : M string unit :=
  modify (fun out => out +:+ text +:+ end_).

(** [text * n] *)
Definition str_mul (text : string) (n : nat) : string :=
  Nat.iter n (String.append text) EmptyString.

Definition _render_grid (config : GameConfig) (grid : Grid) : M string unit :=
  for_each (all_positions (size grid)) (fun position =>
    (if col position =? 0 then print "║" "" else mret tt);;
    let cell := get_cell grid position in
    let char := if is_alive cell then alive_char config else dead_char config in
    print (str_mul char 2) "";;
    if col position =? width (size grid) - 1 then print "║" newline else mret tt).

(** The text of a row of the grid and of the whole grid, as it should
    appear: a border, two characters for each cell of the row, a border and
    the end of the line. *)
Definition concat_strings (l : list string) : string :=
  foldr String.append EmptyString l.
Definition cell_chars (config : GameConfig) (grid : Grid) (r c : Z) : string :=
  str_mul (if is_alive (get_cell grid (mkPosition r c))
           then alive_char config else dead_char config) 2.
Definition row_text (config : GameConfig) (grid : Grid) (r : Z) : string :=
  "║" +:+ concat_strings (cell_chars config grid r <$> range (width (size grid)))
      +:+ "║" +:+ newline.
Definition grid_text (config : GameConfig) (grid : Grid) : string :=
  concat_strings (row_text config grid <$> range (height (size grid))).

(** ** game_of_life.py after the extraction of the engine

    The old class keeps its grid and its generation and hands them to a
    new engine for each run. *)

Module Facade.

Record GameOfLife : Type := mkGameOfLife {
  _grid : Grid;
  _generation : Generation;
  config : GameConfig
}.

(** The game together with its surroundings, as [World] for the engine. *)
Record GameWorld : Type := mkGameWorld {
  game : GameOfLife;
  game_calls : list ExternalCall;
  game_ctrl_c : option nat
}.

(** [engine = GameEngine(self._grid, self.config)];
    [engine.generation = self._generation]; [engine.run()];
    [self._grid = engine.grid]; [self._generation = engine.generation] *)
Definition run (fuel : nat) : M GameWorld unit :=
  mkM (fun w =>
    let self := game w in
    let engine := GameEngine_init (_grid self) (config self) in
    let engine := let 'mkGameEngine g _ c := engine in
                  mkGameEngine g (_generation self) c in
    match runM (run fuel) (mkWorld engine (game_calls w) (game_ctrl_c w)) with
    | (Returned _, mkWorld engine calls ctrl_c) =>
        let self := mkGameOfLife (grid engine) (_generation self) (config self) in
        let self := mkGameOfLife (_grid self) (generation engine) (config self) in
        (Returned tt, mkGameWorld self calls ctrl_c)
    | (Raised e, mkWorld _ calls ctrl_c) => (Raised e, mkGameWorld self calls ctrl_c)
    | (Unfinished, mkWorld _ calls ctrl_c) => (Unfinished, mkGameWorld self calls ctrl_c)
    end).

(** [position = Position(row, col)];
    [return self._grid.count_living_neighbors(position)] *)
Definition _count_neighbors (self : GameOfLife) (row col : Z) : Z :=
  let position := mkPosition row col in
  count_living_neighbors (_grid self) position.

End Facade.

(** The engine a game starts a run with. *)
Definition engine_of (self : Facade.GameOfLife) : GameEngine :=
  mkGameEngine (Facade._grid self) (Facade._generation self) (Facade.config self).

(** ** Interrupts inside [step]

    Python raises [KeyboardInterrupt] between two instructions of the main
    thread, so also while [step] runs.  For the engine three places differ:
    before [self.grid] is assigned (the new grid is being computed), between
    the two assignments, and after both, before [step] returns.  [signal]
    says at which of them the exception is raised in this call, if at
    any. *)

Inductive StepPoint : Type :=
| BeforeGridAssigned
| BetweenAssignments
| AfterBothAssigned.

#[global] Instance StepPoint_eq_dec : EqDecision StepPoint.
Proof. solve_decision. Defined.

Definition interrupt_point (signal : option StepPoint) (here : StepPoint)
  : M GameEngine unit :=
  if bool_decide (signal = Some here) then raise KeyboardInterrupt else mret tt.

Definition step_interruptible (signal : option StepPoint) : M GameEngine unit :=
  interrupt_point signal BeforeGridAssigned;;
  new_grid ← _calculate_next_generation;
  modify (fun self => mkGameEngine new_grid (generation self) (config self));;
  interrupt_point signal BetweenAssignments;;
  modify (fun self => mkGameEngine (grid self) (next (generation self)) (config self));;
  interrupt_point signal AfterBothAssigned.

(** The loop of [run] with such calls of [step]: [signals i] is the signal
    of the step of pass [i]. *)
Definition run_iteration_interruptible (signal : option StepPoint) : M World unit :=
  self ← on_engine get;
  external (Render (grid self) (generation self));;
  external (Sleep (delay (config self)));;
  on_engine (step_interruptible signal).

Fixpoint while_true_from (fuel pass : nat) (signals : nat -> option StepPoint)
  : M World unit :=
  match fuel with
  | O => unfinished
  | S fuel' =>
      run_iteration_interruptible (signals pass);;
      while_true_from fuel' (S pass) signals
  end.

Definition run_interruptible (fuel : nat) (signals : nat -> option StepPoint)
  : M World unit :=
  try_except_KeyboardInterrupt
    (while_true_from fuel 0 signals)
    (self ← on_engine get;
     external (ShowExitMessage (generation self))).

(** The engine a call of [step] leaves when it is interrupted. *)
Definition after_interrupted_step (point : StepPoint) (e : GameEngine) : GameEngine :=
  (runM (step_interruptible (Some point)) e).2.

(** * Properties *)

(** ** GameRules *)

Lemma py_in_2_3 (n : Z) : py_in n [2; 3] = true <-> n = 2 \/ n = 3.
Proof. unfold py_in; cbn. lia. Qed.

Lemma next_alive_agrees (c : Cell) (n : Z) :
  alive (calculate_next_state c n) = Legacy.next_alive (alive c) n.
Proof.
  unfold calculate_next_state, Legacy.next_alive, is_alive.
  destruct (alive c); [by destruct (py_in n [2; 3]) | by destruct (n =? 3)].
Qed.

(** C1: for every cell state and every neighbour count from 0 to 8,
    [calculate_next_state] returns an alive cell exactly when the cell is
    alive and the count is 2 or 3, or the cell is dead and the count is 3;
    in every other case it returns a dead cell.  It decides as the inline
    rule of the code before the refactoring does. *)
Theorem calculate_next_state_conway (c : Cell) (n : Z) :
  0 <= n <= 8 ->
  let lives := (is_alive c = true /\ (n = 2 \/ n = 3))
               \/ (is_dead c = true /\ n = 3) in
  (calculate_next_state c n = alive_cell <-> lives)
  /\ (~ lives -> calculate_next_state c n = dead_cell)
  /\ alive (calculate_next_state c n) = Legacy.next_alive (alive c) n.
Proof.
  intros _ lives; subst lives.
  enough ((calculate_next_state c n = alive_cell <->
             (is_alive c = true /\ (n = 2 \/ n = 3)) \/ (is_dead c = true /\ n = 3))
          /\ (~ ((is_alive c = true /\ (n = 2 \/ n = 3)) \/ (is_dead c = true /\ n = 3)) ->
              calculate_next_state c n = dead_cell)) as [H1 H2]
    by (split; [exact H1 | split; [exact H2 | apply next_alive_agrees]]).
  unfold calculate_next_state, is_dead, is_alive.
  destruct c as [[]]; cbn [alive negb].
  - destruct (py_in n [2; 3]) eqn:E.
    + apply py_in_2_3 in E. split; [split; auto | tauto].
    + assert (~ (n = 2 \/ n = 3)) by (rewrite <- py_in_2_3; congruence).
      split; [split; [discriminate | tauto] | reflexivity].
  - destruct (Z.eqb_spec n 3).
    + split; [split; auto | tauto].
    + split; [split; [discriminate | intros [[? _]|[_ ?]]; congruence] | reflexivity].
Qed.

Lemma calculate_next_state_conway_witness :
  0 <= 3 <= 8 /\
  (calculate_next_state dead_cell 3 = alive_cell <->
     (is_alive dead_cell = true /\ (3 = 2 \/ 3 = 3))
     \/ (is_dead dead_cell = true /\ 3 = 3)).
Proof.
  split; [lia |].
  exact (proj1 (calculate_next_state_conway dead_cell 3 ltac:(lia))).
Defined.

(** C10: the rule is a total function of any integer count: an alive cell
    with a count other than 2 or 3 becomes dead, a dead cell with a count
    other than 3 stays dead, and every call returns a cell. *)
Theorem calculate_next_state_total (c : Cell) (n : Z) :
  (is_alive c = true -> n <> 2 -> n <> 3 ->
     calculate_next_state c n = dead_cell)
  /\ (is_dead c = true -> n <> 3 -> calculate_next_state c n = dead_cell)
  /\ (calculate_next_state c n = alive_cell
      \/ calculate_next_state c n = dead_cell).
Proof.
  unfold calculate_next_state, is_dead, is_alive.
  destruct c as [[]]; cbn [alive negb]; repeat split; try discriminate.
  - intros _ H2 H3. destruct (py_in n [2; 3]) eqn:E; [|reflexivity].
    apply py_in_2_3 in E. lia.
  - destruct (py_in n [2; 3]); auto.
  - intros _ H3. destruct (Z.eqb_spec n 3); [lia | reflexivity].
  - destruct (n =? 3); auto.
Qed.

Lemma calculate_next_state_total_witness :
  calculate_next_state alive_cell (-7) = dead_cell
  /\ calculate_next_state dead_cell 1000 = dead_cell.
Proof.
  split.
  - apply (proj1 (calculate_next_state_total alive_cell (-7)));
      [reflexivity | lia | lia].
  - apply (proj1 (proj2 (calculate_next_state_total dead_cell 1000)));
      [reflexivity | lia].
Defined.

(** ** Position *)

Lemma neighbors_unfold (p : Position) :
  neighbors p =
    [ mkPosition (row p + -1) (col p + -1); mkPosition (row p + -1) (col p + 0);
      mkPosition (row p + -1) (col p + 1);  mkPosition (row p + 0) (col p + -1);
      mkPosition (row p + 0) (col p + 1);   mkPosition (row p + 1) (col p + -1);
      mkPosition (row p + 1) (col p + 0);   mkPosition (row p + 1) (col p + 1) ].
Proof. reflexivity. Qed.

Lemma Position_eq (p q : Position) : p = q <-> row p = row q /\ col p = col q.
Proof.
  destruct p, q; cbn; split; [intros [= -> ->]; auto | intros [-> ->]; auto].
Qed.

(** C3: [neighbors] returns the eight positions at offsets [dr], [dc] in
    [{-1, 0, 1}] other than [(0, 0)], each once, always in the same
    order (rows of offsets from -1 to 1, columns from -1 to 1 inside), and
    whatever the coordinates are: nothing is filtered by bounds. *)
Theorem neighbors_eight_offsets (p : Position) :
  neighbors p =
    [ mkPosition (row p - 1) (col p - 1); mkPosition (row p - 1) (col p);
      mkPosition (row p - 1) (col p + 1); mkPosition (row p) (col p - 1);
      mkPosition (row p) (col p + 1);     mkPosition (row p + 1) (col p - 1);
      mkPosition (row p + 1) (col p);     mkPosition (row p + 1) (col p + 1) ]
  /\ length (neighbors p) = 8%nat
  /\ NoDup (neighbors p)
  /\ (forall q, q ∈ neighbors p <->
        exists dr dc, dr ∈ offsets /\ dc ∈ offsets /\ (dr, dc) <> (0, 0)
                      /\ q = mkPosition (row p + dr) (col p + dc)).
Proof.
  split; [| split; [reflexivity | split]].
  - rewrite neighbors_unfold. repeat (f_equal; try lia).
  - rewrite neighbors_unfold.
    repeat (apply NoDup_cons; split;
            [rewrite ?elem_of_cons, elem_of_nil, ?Position_eq; cbn; lia |]).
    apply NoDup_nil_2.
  - intros q. unfold neighbors. rewrite list_elem_of_bind. split.
    + intros (dr & Hq & Hdr). apply list_elem_of_bind in Hq as (dc & Hq & Hdc).
      destruct (negb ((dr =? 0) && (dc =? 0))) eqn:E.
      * apply list_elem_of_singleton in Hq. exists dr, dc.
        repeat split; auto. intros [= -> ->]. discriminate.
      * apply elem_of_nil in Hq as [].
    + intros (dr & dc & Hdr & Hdc & Hne & ->). exists dr. split; [|exact Hdr].
      apply list_elem_of_bind. exists dc. split; [|exact Hdc].
      destruct (Z.eqb_spec dr 0) as [->|]; destruct (Z.eqb_spec dc 0) as [->|];
        cbn; try apply list_elem_of_singleton; try reflexivity.
      congruence.
Qed.

(** ** GridSize *)

Lemma length_range (n : Z) : length (range n) = Z.to_nat n.
Proof. unfold range. by rewrite length_fmap, length_seq. Qed.

Lemma range_lookup (n : Z) (i : nat) :
  (i < Z.to_nat n)%nat -> range n !! i = Some (Z.of_nat i).
Proof.
  intros Hi. unfold range. rewrite list_lookup_fmap, lookup_seq_lt by done.
  reflexivity.
Qed.

Lemma elem_of_range (n x : Z) : x ∈ range n <-> 0 <= x < n.
Proof.
  unfold range. rewrite list_elem_of_fmap. split.
  - intros (k & -> & Hk). apply elem_of_seq in Hk. lia.
  - intros Hx. exists (Z.to_nat x). split; [lia |]. apply elem_of_seq. lia.
Qed.

Lemma NoDup_range (n : Z) : NoDup (range n).
Proof.
  unfold range. apply NoDup_fmap_2; [intros ? ?; lia | apply NoDup_seq].
Qed.

Lemma contains_spec (gs : GridSize) (p : Position) :
  contains gs p = true <-> (0 <= row p < height gs) /\ (0 <= col p < width gs).
Proof. unfold contains. lia. Qed.

Lemma all_positions_rows (gs : GridSize) :
  all_positions gs = r ← range (height gs); mkPosition r <$> range (width gs).
Proof.
  unfold all_positions. apply list_bind_ext; [|reflexivity]. intros r.
  induction (range (width gs)) as [|c l IH]; [reflexivity |].
  cbn. by rewrite <- IH.
Qed.

Lemma elem_of_all_positions (gs : GridSize) (p : Position) :
  p ∈ all_positions gs <-> contains gs p = true.
Proof.
  rewrite contains_spec, all_positions_rows, list_elem_of_bind. split.
  - intros (r & Hp & Hr). apply list_elem_of_fmap in Hp as (c & -> & Hc).
    apply elem_of_range in Hr, Hc. cbn. lia.
  - intros [Hr Hc]. exists (row p). split; [| by apply elem_of_range].
    apply list_elem_of_fmap. exists (col p). split; [by destruct p |].
    by apply elem_of_range.
Qed.

Lemma NoDup_all_positions (gs : GridSize) : NoDup (all_positions gs).
Proof.
  rewrite all_positions_rows. apply NoDup_bind.
  - intros r1 r2 p _ _ H1 H2.
    apply list_elem_of_fmap in H1 as (c1 & -> & _).
    apply list_elem_of_fmap in H2 as (c2 & [= -> _] & _). reflexivity.
  - intros r _. apply NoDup_fmap_2; [intros ? ? [=]; done | apply NoDup_range].
  - apply NoDup_range.
Qed.

(** Position [i * k + j] of a concatenation of blocks of [k] elements is
    position [j] of block [i]. *)
Lemma bind_lookup_blocks {A B} (f : A -> list B) (k : nat) (l : list A) (i j : nat) :
  (forall x, length (f x) = k) -> (j < k)%nat ->
  (l ≫= f) !! (i * k + j)%nat = l !! i ≫= fun x => f x !! j.
Proof.
  intros Hk Hj. revert i. induction l as [|x l IH]; intros i; [done |].
  rewrite bind_cons. destruct i as [|i].
  - cbn [Nat.mul Nat.add]. rewrite lookup_app_l by (rewrite Hk; lia). done.
  - rewrite lookup_app_r by (rewrite Hk; lia). rewrite Hk.
    replace (S i * k + j - k)%nat with (i * k + j)%nat by lia. apply IH.
Qed.

Lemma length_bind_blocks {A B} (f : A -> list B) (k : nat) (l : list A) :
  (forall x, length (f x) = k) -> length (l ≫= f) = (length l * k)%nat.
Proof.
  intros Hk. induction l as [|x l IH]; [done |].
  rewrite bind_cons, length_app, Hk, IH. cbn. lia.
Qed.

Lemma length_all_positions (gs : GridSize) :
  length (all_positions gs) = (Z.to_nat (height gs) * Z.to_nat (width gs))%nat.
Proof.
  rewrite all_positions_rows.
  rewrite (length_bind_blocks _ (Z.to_nat (width gs))), length_range; [done |].
  intros r. by rewrite length_fmap, length_range.
Qed.

Lemma all_positions_lookup (gs : GridSize) (r c : Z) :
  0 <= r < height gs -> 0 <= c < width gs ->
  all_positions gs !! Z.to_nat (r * width gs + c) = Some (mkPosition r c).
Proof.
  intros Hr Hc. rewrite all_positions_rows.
  replace (Z.to_nat (r * width gs + c))
    with (Z.to_nat r * Z.to_nat (width gs) + Z.to_nat c)%nat by nia.
  rewrite (bind_lookup_blocks _ (Z.to_nat (width gs)));
    [| intros; by rewrite length_fmap, length_range | lia].
  rewrite range_lookup by lia. cbn.
  rewrite list_lookup_fmap, range_lookup by lia. cbn.
  f_equal. f_equal; lia.
Qed.

(** C4: for a grid size with positive width and height, [all_positions]
    lists [width * height] positions, no position twice, in row-major
    order (index [i] holds row [i / width], column [i mod width]), and the
    positions it lists are exactly those [contains] accepts. *)
Theorem all_positions_row_major (gs : GridSize) :
  0 < width gs -> 0 < height gs ->
  Z.of_nat (length (all_positions gs)) = width gs * height gs
  /\ NoDup (all_positions gs)
  /\ (forall i, 0 <= i < width gs * height gs ->
        all_positions gs !! Z.to_nat i
        = Some (mkPosition (i / width gs) (i mod width gs)))
  /\ (forall p, p ∈ all_positions gs -> contains gs p = true)
  /\ (forall p, contains gs p = true -> p ∈ all_positions gs).
Proof.
  intros Hw Hh. repeat split.
  - rewrite length_all_positions. nia.
  - apply NoDup_all_positions.
  - intros i Hi.
    pose proof (Z.div_mod i (width gs) ltac:(lia)) as Hdm.
    pose proof (Z.mod_pos_bound i (width gs) Hw) as Hm.
    assert (0 <= i / width gs < height gs) as Hd.
    { split; [apply Z.div_pos; lia | apply Z.div_lt_upper_bound; lia]. }
    rewrite Hdm at 1.
    rewrite (Z.mul_comm (width gs)). by apply all_positions_lookup.
  - intros p. apply elem_of_all_positions.
  - intros p. apply elem_of_all_positions.
Qed.

Lemma all_positions_row_major_witness :
  Z.of_nat (length (all_positions (mkGridSize 3 2))) = 3 * 2
  /\ all_positions (mkGridSize 3 2) !! 4%nat = Some (mkPosition 1 1).
Proof.
  pose proof (all_positions_row_major (mkGridSize 3 2) ltac:(cbn; lia) ltac:(cbn; lia))
    as (Hlen & _ & Hidx & _).
  split; [exact Hlen | exact (Hidx 4 ltac:(cbn; lia))].
Defined.

(** ** Grid *)

Lemma runM_bind {S A B} (m : M S A) (k : A -> M S B) (s : S) :
  runM (m ≫= k) s
  = match runM m s with
    | (Returned a, s') => runM (k a) s'
    | (Raised e, s') => (Raised e, s')
    | (Unfinished, s') => (Unfinished, s')
    end.
Proof. reflexivity. Qed.

Lemma for_each_cons {S A} (x : A) (xs : list A) (body : A -> M S unit) :
  for_each (x :: xs) body = (body x;; for_each xs body).
Proof. reflexivity. Qed.

Lemma for_each_modify {S A} (f : A -> S -> S) (xs : list A) (s : S) :
  runM (for_each xs (fun x => modify (f x))) s
  = (Returned tt, foldl (fun s x => f x s) s xs).
Proof.
  revert s. induction xs as [|x xs IH]; intros s; [reflexivity |].
  cbn. apply IH.
Qed.

Lemma foldl_store_cell (f : Position -> Cell) (xs : list Position) (g : Grid) :
  foldl (fun s x => store_cell x (f x) s) g xs
  = mkGrid (_size g) (foldl (fun m x => <[x := f x]> m) (_cells g) xs).
Proof.
  revert g. induction xs as [|x xs IH]; intros g; [by destruct g |].
  cbn. by rewrite IH.
Qed.

Lemma foldl_insert_lookup (f : Position -> Cell) (xs : list Position)
    (m : gmap Position Cell) (p : Position) :
  foldl (fun m x => <[x := f x]> m) m xs !! p
  = if bool_decide (p ∈ xs) then Some (f p) else m !! p.
Proof.
  revert m. induction xs as [|x xs IH]; intros m; [reflexivity |].
  cbn. rewrite IH. destruct (decide (p = x)) as [->|Hne].
  - rewrite (bool_decide_eq_true_2 (x ∈ x :: xs)) by apply list_elem_of_here.
    case_bool_decide; [done | by rewrite lookup_insert_eq].
  - rewrite lookup_insert_ne by done.
    rewrite (bool_decide_ext (p ∈ x :: xs) (p ∈ xs)); [done |].
    rewrite elem_of_cons. intuition congruence.
Qed.

Lemma Grid_init_eq (gs : GridSize) :
  Grid_init gs
  = mkGrid gs (foldl (fun m x => <[x := dead_cell]> m) ∅ (all_positions gs)).
Proof.
  unfold Grid_init, _initialize_empty. cbn.
  rewrite (for_each_modify (fun x => store_cell x dead_cell)). cbn.
  by rewrite (foldl_store_cell (fun _ => dead_cell)).
Qed.

Lemma Grid_init_size (gs : GridSize) : _size (Grid_init gs) = gs.
Proof. by rewrite Grid_init_eq. Qed.

Lemma Grid_init_lookup (gs : GridSize) (p : Position) :
  _cells (Grid_init gs) !! p = if contains gs p then Some dead_cell else None.
Proof.
  rewrite Grid_init_eq. cbn.
  rewrite (foldl_insert_lookup (fun _ => dead_cell)), lookup_empty.
  destruct (contains gs p) eqn:E.
  - by rewrite bool_decide_eq_true_2 by by apply elem_of_all_positions.
  - rewrite bool_decide_eq_false_2; [done |].
    rewrite elem_of_all_positions. congruence.
Qed.

Lemma set_cell_in (g : Grid) (p : Position) (c : Cell) :
  contains (_size g) p = true ->
  runM (set_cell p c) g = (Returned tt, store_cell p c g).
Proof. intros H. unfold set_cell. cbn. by rewrite H. Qed.

Lemma set_cell_out (g : Grid) (p : Position) (c : Cell) :
  contains (_size g) p = false ->
  runM (set_cell p c) g
  = (Raised (ValueError ("Position " +:+ Position_str p +:+ " out of bounds")), g).
Proof. intros H. unfold set_cell. cbn. by rewrite H. Qed.

(** A loop of [set_cell] over positions of the grid returns, and stores
    each cell. *)
Lemma for_each_set_cell (f : Position -> Cell) (xs : list Position) (g : Grid) :
  Forall (fun p => contains (_size g) p = true) xs ->
  runM (for_each xs (fun p => set_cell p (f p))) g
  = (Returned tt,
     mkGrid (_size g) (foldl (fun m x => <[x := f x]> m) (_cells g) xs)).
Proof.
  revert g. induction xs as [|x xs IH]; intros g Hxs; [by destruct g |].
  apply Forall_cons in Hxs as [Hx Hxs].
  rewrite for_each_cons, runM_bind, (set_cell_in _ _ _ Hx).
  rewrite IH by done. reflexivity.
Qed.

Lemma get_cell_lookup (g : Grid) (p : Position) :
  get_cell g p
  = if contains (_size g) p then default dead_cell (_cells g !! p) else dead_cell.
Proof. unfold get_cell. by destruct (contains (_size g) p). Qed.

(** C8: [set_cell] raises its out-of-bounds error (Python's [ValueError]
    with the message "Position (r, c) out of bounds") exactly when the
    size does not contain the position; a raising call leaves the grid as
    it was; a returning call stores the cell at the position and leaves
    the cell of every other position, and the size, as they were. *)
Theorem set_cell_bounds_checked (g : Grid) (p : Position) (c : Cell) :
  let r := runM (set_cell p c) g in
  ((exists e, r.1 = Raised e) <-> contains (size g) p = false)
  /\ (contains (size g) p = false ->
      r = (Raised (ValueError ("Position " +:+ Position_str p +:+ " out of bounds")), g))
  /\ (contains (size g) p = true ->
      r.1 = Returned tt
      /\ size r.2 = size g
      /\ _cells r.2 !! p = Some c
      /\ get_cell r.2 p = c
      /\ (forall q, q <> p -> _cells r.2 !! q = _cells g !! q)
      /\ (forall q, q <> p -> get_cell r.2 q = get_cell g q)).
Proof.
  cbn zeta. unfold size. destruct (contains (_size g) p) eqn:E.
  - rewrite (set_cell_in _ _ _ E). cbn [fst snd]. split; [| split; [done |]].
    + split; [intros [e [=]] | done].
    + intros _. unfold store_cell. rewrite !get_cell_lookup. cbn.
      rewrite E, lookup_insert_eq. repeat split; try done.
      * intros q Hq. by rewrite lookup_insert_ne.
      * intros q Hq. rewrite !get_cell_lookup. cbn.
        by rewrite lookup_insert_ne.
  - rewrite (set_cell_out _ _ _ E). cbn [fst snd]. split; [| split; [done | done]].
    split; [done | intros _; eauto].
Qed.

Lemma set_cell_bounds_checked_witness :
  runM (set_cell (mkPosition 0 5) alive_cell) (Grid_init (mkGridSize 2 2))
  = (Raised (ValueError "Position (0, 5) out of bounds"), Grid_init (mkGridSize 2 2))
  /\ get_cell (runM (set_cell (mkPosition 1 0) alive_cell)
                    (Grid_init (mkGridSize 2 2))).2 (mkPosition 1 0) = alive_cell.
Proof.
  split.
  - apply (proj1 (proj2 (set_cell_bounds_checked
                           (Grid_init (mkGridSize 2 2)) (mkPosition 0 5) alive_cell))).
    reflexivity.
  - apply (proj2 (proj2 (set_cell_bounds_checked
                           (Grid_init (mkGridSize 2 2)) (mkPosition 1 0) alive_cell))).
    reflexivity.
Defined.

(** *** Counting neighbours *)

Lemma py_sum_ones {A} (l : list A) :
  py_sum ((fun _ => 1) <$> l) = Z.of_nat (length l).
Proof.
  unfold py_sum.
  enough (forall acc, foldl Z.add acc ((fun _ => 1) <$> l)
                      = acc + Z.of_nat (length l)) as H by apply H.
  induction l as [|x l IH]; intros acc; [cbn; lia |].
  rewrite fmap_cons. cbn [foldl length]. rewrite IH. lia.
Qed.

Lemma count_living_neighbors_length (g : Grid) (p : Position) :
  count_living_neighbors g p
  = Z.of_nat (length (filter (fun n => contains (_size g) n
                                       && is_alive (get_cell g n) = true)
                             (neighbors p))).
Proof. apply py_sum_ones. Qed.

Lemma count_as_contributions (g : Grid) (p : Position) :
  count_living_neighbors g p
  = foldr (fun n acc => contribution g n + acc) 0 (neighbors p).
Proof.
  rewrite count_living_neighbors_length. unfold contribution, size.
  induction (neighbors p) as [|n l IH]; [reflexivity |].
  rewrite filter_cons. cbn [foldr]. rewrite <- IH.
  destruct (contains (_size g) n && is_alive (get_cell g n));
    case_decide; try done; cbn [length]; lia.
Qed.

Lemma contribution_cases (g : Grid) (n : Position) :
  contribution g n = 0
  \/ (contribution g n = 1
      /\ (0 <= row n < height (size g)) /\ (0 <= col n < width (size g))
      /\ is_alive (get_cell g n) = true).
Proof.
  unfold contribution. destruct (contains (size g) n) eqn:E; [| by left].
  destruct (is_alive (get_cell g n)); [right | by left].
  apply contains_spec in E. cbn. tauto.
Qed.

Lemma contribution_out_of_bounds (g : Grid) (n : Position) :
  contains (size g) n = false -> contribution g n = 0.
Proof. unfold contribution. by intros ->. Qed.

Lemma count_le_in_bounds (g : Grid) (p : Position) :
  count_living_neighbors g p
  <= Z.of_nat (length (in_bounds_neighbors (size g) p)).
Proof.
  rewrite count_as_contributions. unfold in_bounds_neighbors.
  induction (neighbors p) as [|n l IH]; [reflexivity |].
  rewrite filter_cons. cbn [foldr].
  destruct (contribution_cases g n) as [-> | (-> & Hr & Hc & _)].
  - case_decide; cbn [length]; lia.
  - rewrite decide_True by (apply contains_spec; done). cbn [length]. lia.
Qed.

Lemma count_ext (g g' : Grid) (p : Position) :
  size g' = size g ->
  (forall q, contains (size g) q = true -> _cells g' !! q = _cells g !! q) ->
  count_living_neighbors g' p = count_living_neighbors g p.
Proof.
  intros Hs Hc. rewrite !count_as_contributions.
  induction (neighbors p) as [|n l IH]; [reflexivity |].
  cbn [foldr]. rewrite IH. f_equal.
  unfold contribution. rewrite Hs. destruct (contains (size g) n) eqn:E; [| done].
  rewrite !get_cell_lookup. unfold size in *. by rewrite Hs, E, Hc.
Qed.

Lemma analysis_count_agrees (g : Grid) (p : Position) :
  Analysis.count_living_neighbors g p = count_living_neighbors g p.
Proof.
  unfold Analysis.count_living_neighbors, count_living_neighbors.
  do 2 f_equal. apply list_filter_iff. intros n.
  destruct (contains (_size g) n) eqn:E; [| done]. cbn.
  rewrite get_cell_lookup, E. unfold Analysis.is_alive, is_alive.
  by destruct (_cells g !! n).
Qed.

Ltac neighbor_cases g p :=
  rewrite (count_as_contributions g p), neighbors_unfold; cbn [foldr row col];
  repeat match goal with
  | |- context [contribution g ?n] =>
      lazymatch goal with
      | _ : contribution g n = _ |- _ => fail
      | _ : contribution g n = _ /\ _ |- _ => fail
      | _ => idtac
      end;
      let H := fresh "Hn" in
      pose proof (contribution_cases g n) as H; cbn [row col] in H;
      generalize dependent (contribution g n); intros
  end.

(** C2: the count of living neighbours lies between 0 and 8; it is the sum
    of what each of the eight neighbours contributes, and a neighbour
    outside the bounds contributes nothing (the count is at most the number
    of neighbours inside the bounds, and does not depend on anything stored
    for a position outside them); so a corner counts at most 3, a position on an edge that is
    not a corner at most 5, and an interior position at most 8.  The count
    sketched in the analysis is the same number. *)
Theorem count_living_neighbors_bounds (g : Grid) (p : Position) :
  0 <= count_living_neighbors g p <= 8
  /\ count_living_neighbors g p
     = foldr (fun n acc => contribution g n + acc) 0 (neighbors p)
  /\ (forall n, contains (size g) n = false -> contribution g n = 0)
  /\ count_living_neighbors g p
     <= Z.of_nat (length (in_bounds_neighbors (size g) p))
  /\ (forall g', size g' = size g ->
        (forall q, contains (size g) q = true -> _cells g' !! q = _cells g !! q) ->
        count_living_neighbors g' p = count_living_neighbors g p)
  /\ (is_corner (size g) p = true -> count_living_neighbors g p <= 3)
  /\ (is_edge (size g) p = true -> count_living_neighbors g p <= 5)
  /\ (is_interior (size g) p = true -> count_living_neighbors g p <= 8)
  /\ Analysis.count_living_neighbors g p = count_living_neighbors g p.
Proof.
  split; [| split; [apply count_as_contributions |
              split; [apply contribution_out_of_bounds |
              split; [apply count_le_in_bounds |
              split; [intros; by apply count_ext |]]]]].
  - neighbor_cases g p. lia.
  - unfold is_corner, is_edge, is_interior, on_row_border, on_col_border.
    rewrite !andb_true_iff, !orb_true_iff, !Z.eqb_eq.
    split; [| split; [| split; [| apply analysis_count_agrees]]].
    + intros [[_ Hr] Hc]. neighbor_cases g p. lia.
    + intros [_ Hx].
      destruct (Z.eqb_spec (row p) 0), (Z.eqb_spec (row p) (height (size g) - 1)),
               (Z.eqb_spec (col p) 0), (Z.eqb_spec (col p) (width (size g) - 1));
        cbn in Hx; try discriminate; neighbor_cases g p; lia.
    + intros _. neighbor_cases g p. lia.
Qed.

Lemma count_living_neighbors_bounds_witness :
  is_corner (mkGridSize 3 3) (mkPosition 0 0) = true
  /\ count_living_neighbors
       (grid_with (mkGridSize 3 3)
          [mkPosition 0 1; mkPosition 1 0; mkPosition 1 1; mkPosition 2 2])
       (mkPosition 0 0) <= 3.
Proof.
  split; [reflexivity |].
  pose proof (count_living_neighbors_bounds
                (grid_with (mkGridSize 3 3)
                   [mkPosition 0 1; mkPosition 1 0; mkPosition 1 1; mkPosition 2 2])
                (mkPosition 0 0)) as (_ & _ & _ & _ & _ & Hcorner & _).
  apply Hcorner. reflexivity.
Defined.

(** ** GameEngine.step *)

Lemma Forall_all_positions (gs : GridSize) :
  Forall (fun p => contains gs p = true) (all_positions gs).
Proof. apply Forall_forall. intros p. apply elem_of_all_positions. Qed.

(** The loop of [_calculate_next_generation] never raises: it only writes
    positions of the grid.  It hands back a fresh grid and leaves the
    engine alone. *)
Lemma calculate_next_generation_returns (e : GameEngine) :
  exists new_grid,
    runM _calculate_next_generation e = (Returned new_grid, e)
    /\ size new_grid = size (grid e)
    /\ forall p, _cells new_grid !! p
                 = if contains (size (grid e)) p
                   then Some (next_cell (grid e) p) else None.
Proof.
  unfold _calculate_next_generation.
  rewrite runM_bind. cbn [get runM]. unfold with_local. cbn [runM].
  rewrite (for_each_set_cell (next_cell (grid e)))
    by (rewrite Grid_init_size; apply Forall_all_positions).
  eexists. split; [reflexivity |]. rewrite Grid_init_size.
  split; [reflexivity |]. intros p. cbn [_cells].
  rewrite (foldl_insert_lookup (next_cell (grid e))), Grid_init_lookup.
  destruct (contains (size (grid e)) p) eqn:E.
  - by rewrite bool_decide_eq_true_2 by by apply elem_of_all_positions.
  - rewrite bool_decide_eq_false_2; [done |].
    rewrite elem_of_all_positions. congruence.
Qed.

Lemma step_returns (e : GameEngine) (new_grid : Grid) :
  runM _calculate_next_generation e = (Returned new_grid, e) ->
  runM step e
  = (Returned tt, mkGameEngine new_grid (next (generation e)) (config e)).
Proof. intros H. unfold step. rewrite runM_bind, H. reflexivity. Qed.

Lemma after_step_generation (e : GameEngine) :
  generation (after_step e) = next (generation e).
Proof.
  destruct (calculate_next_generation_returns e) as (g' & Hg & _).
  unfold after_step. by rewrite (step_returns e g' Hg).
Qed.

Lemma after_step_config (e : GameEngine) : config (after_step e) = config e.
Proof.
  destruct (calculate_next_generation_returns e) as (g' & Hg & _).
  unfold after_step. by rewrite (step_returns e g' Hg).
Qed.

Lemma after_step_size (e : GameEngine) :
  size (grid (after_step e)) = size (grid e).
Proof.
  destruct (calculate_next_generation_returns e) as (g' & Hg & Hs & _).
  unfold after_step. by rewrite (step_returns e g' Hg).
Qed.

Lemma after_step_lookup (e : GameEngine) (p : Position) :
  _cells (grid (after_step e)) !! p
  = if contains (size (grid e)) p then Some (next_cell (grid e) p) else None.
Proof.
  destruct (calculate_next_generation_returns e) as (g' & Hg & _ & Hl).
  unfold after_step. rewrite (step_returns e g' Hg). apply Hl.
Qed.

Lemma step_run (e : GameEngine) : runM step e = (Returned tt, after_step e).
Proof.
  destruct (calculate_next_generation_returns e) as (g' & Hg & _).
  unfold after_step. by rewrite (step_returns e g' Hg).
Qed.

Lemma steps_S (n : nat) (e : GameEngine) :
  steps (S n) e = after_step (steps n e).
Proof. reflexivity. Qed.

Lemma steps_generation (n : nat) (e : GameEngine) :
  number (generation (steps n e)) = number (generation e) + Z.of_nat n.
Proof.
  induction n as [|n IH]; [cbn; lia |].
  rewrite steps_S, after_step_generation. cbn [next number]. lia.
Qed.

(** ** GameEngine.run *)

Lemma steps_after_step (n : nat) (e : GameEngine) :
  steps n (after_step e) = after_step (steps n e).
Proof. unfold steps. by rewrite <- Nat.iter_succ_r. Qed.

Lemma run_iteration_quiet (e : GameEngine) (cs : list ExternalCall) :
  runM run_iteration (mkWorld e cs None)
  = (Returned tt, mkWorld (after_step e) (cs ++ iteration_calls e) None).
Proof.
  unfold run_iteration. rewrite !runM_bind. cbn -[step].
  rewrite step_run. unfold iteration_calls. by rewrite <- app_assoc.
Qed.

Lemma run_iteration_later (e : GameEngine) (cs : list ExternalCall) (k : nat) :
  runM run_iteration (mkWorld e cs (Some (S (S k))))
  = (Returned tt, mkWorld (after_step e) (cs ++ iteration_calls e) (Some k)).
Proof.
  unfold run_iteration. rewrite !runM_bind. cbn -[step].
  rewrite step_run. unfold iteration_calls. by rewrite <- app_assoc.
Qed.

Lemma run_iteration_render_interrupted (e : GameEngine) (cs : list ExternalCall) :
  runM run_iteration (mkWorld e cs (Some 0%nat))
  = (Raised KeyboardInterrupt,
     mkWorld e (cs ++ [Render (grid e) (generation e)]) None).
Proof. reflexivity. Qed.

Lemma run_iteration_sleep_interrupted (e : GameEngine) (cs : list ExternalCall) :
  runM run_iteration (mkWorld e cs (Some 1%nat))
  = (Raised KeyboardInterrupt, mkWorld e (cs ++ iteration_calls e) None).
Proof.
  unfold run_iteration. rewrite !runM_bind. cbn.
  unfold iteration_calls. by rewrite <- app_assoc.
Qed.

Lemma while_true_S {S} (fuel : nat) (body : M S unit) :
  while_true (Datatypes.S fuel) body = (body;; while_true fuel body).
Proof. reflexivity. Qed.

(** Never interrupted, the loop is still going after any number of passes. *)
Lemma loop_quiet (fuel : nat) (e : GameEngine) (cs : list ExternalCall) :
  runM (while_true fuel run_iteration) (mkWorld e cs None)
  = (Unfinished, mkWorld (steps fuel e) (cs ++ loop_calls fuel e) None).
Proof.
  revert e cs. induction fuel as [|fuel IH]; intros e cs.
  - cbn. by rewrite app_nil_r.
  - rewrite while_true_S, runM_bind, run_iteration_quiet, IH.
    rewrite steps_after_step. cbn [loop_calls]. by rewrite <- app_assoc.
Qed.

Lemma half_SS (k : nat) : (S (S k) / 2 = S (k / 2))%nat.
Proof. change (S (S k)) with (1 * 2 + k)%nat. by rewrite Nat.div_add_l. Qed.

(** Interrupted during its call number [k], the loop raises out of pass
    [k / 2], with that many steps done and the calls up to that one made. *)
Lemma loop_interrupted (fuel k : nat) (e : GameEngine) (cs : list ExternalCall) :
  (k / 2 < fuel)%nat ->
  runM (while_true fuel run_iteration) (mkWorld e cs (Some k))
  = (Raised KeyboardInterrupt,
     mkWorld (steps (k / 2) e)
             (cs ++ take (S k) (loop_calls (S (k / 2)) e)) None).
Proof.
  revert k e cs. induction fuel as [|fuel IH]; intros k e cs Hk; [lia |].
  rewrite while_true_S, runM_bind.
  destruct k as [|[|k]].
  - by rewrite run_iteration_render_interrupted.
  - rewrite run_iteration_sleep_interrupted.
    change (1 / 2)%nat with 0%nat. cbn [loop_calls]. by rewrite app_nil_r.
  - rewrite run_iteration_later.
    rewrite half_SS in Hk |- *.
    rewrite IH by lia. rewrite steps_after_step.
    change (loop_calls (S (S (k / 2))) e)
      with (iteration_calls e ++ loop_calls (S (k / 2)) (after_step e)).
    rewrite <- app_assoc. reflexivity.
Qed.

(** Interrupted later than the fuel reaches, the loop is still going. *)
Lemma loop_not_yet (fuel k : nat) (e : GameEngine) (cs : list ExternalCall) :
  (fuel <= k / 2)%nat ->
  exists k',
    runM (while_true fuel run_iteration) (mkWorld e cs (Some k))
    = (Unfinished, mkWorld (steps fuel e) (cs ++ loop_calls fuel e) (Some k')).
Proof.
  revert k e cs. induction fuel as [|fuel IH]; intros k e cs Hk.
  - exists k. cbn. by rewrite app_nil_r.
  - destruct k as [|[|k]]; [cbn in Hk; lia | cbn in Hk; lia |].
    rewrite half_SS in Hk.
    destruct (IH k (after_step e) (cs ++ iteration_calls e) ltac:(lia)) as [k' Hk'].
    exists k'. rewrite while_true_S, runM_bind, run_iteration_later, Hk'.
    rewrite steps_after_step. cbn [loop_calls]. by rewrite <- app_assoc.
Qed.

Lemma steps_config (n : nat) (e : GameEngine) : config (steps n e) = config e.
Proof.
  induction n as [|n IH]; [reflexivity |].
  by rewrite steps_S, after_step_config.
Qed.

Lemma run_quiet (fuel : nat) (e : GameEngine) (cs : list ExternalCall) :
  runM (run fuel) (mkWorld e cs None)
  = (Unfinished, mkWorld (steps fuel e) (cs ++ loop_calls fuel e) None).
Proof.
  unfold run, try_except_KeyboardInterrupt. cbn [runM].
  by rewrite loop_quiet.
Qed.

Lemma run_interrupted (fuel k : nat) (e : GameEngine) (cs : list ExternalCall) :
  (k / 2 < fuel)%nat ->
  runM (run fuel) (mkWorld e cs (Some k))
  = (Returned tt,
     mkWorld (steps (k / 2) e)
             (cs ++ take (S k) (loop_calls (S (k / 2)) e)
                 ++ [ShowExitMessage (generation (steps (k / 2) e))]) None).
Proof.
  intros Hk. unfold run, try_except_KeyboardInterrupt. cbn [runM].
  rewrite loop_interrupted by done. cbn. by rewrite <- app_assoc.
Qed.

(** C9: a pass of the loop of [run] renders the current grid and
    generation, then sleeps for the configured delay, then steps.  With no
    Ctrl+C the loop is still going after any number of passes.  With
    Ctrl+C during the loop's call number [k], [run] returns after
    [k / 2] completed steps, and its last call shows the exit message with
    the generation reached.  [run] returns in no other way, and the delay
    is the same in every pass. *)
Theorem run_loop_render_sleep_step (e : GameEngine) (cs : list ExternalCall) :
  runM run_iteration (mkWorld e cs None)
  = (Returned tt,
     mkWorld (after_step e)
             (cs ++ [Render (grid e) (generation e); Sleep (delay (config e))])
             None)
  /\ (forall fuel,
        runM (run fuel) (mkWorld e cs None)
        = (Unfinished, mkWorld (steps fuel e) (cs ++ loop_calls fuel e) None))
  /\ (forall fuel k, (k / 2 < fuel)%nat ->
        runM (run fuel) (mkWorld e cs (Some k))
        = (Returned tt,
           mkWorld (steps (k / 2) e)
                   (cs ++ take (S k) (loop_calls (S (k / 2)) e)
                       ++ [ShowExitMessage (generation (steps (k / 2) e))])
                   None))
  /\ (forall fuel interrupt,
        (runM (run fuel) (mkWorld e cs interrupt)).1 <> Unfinished ->
        (runM (run fuel) (mkWorld e cs interrupt)).1 = Returned tt
        /\ exists k, interrupt = Some k /\ (k / 2 < fuel)%nat)
  /\ (forall n, delay (config (steps n e)) = delay (config e)).
Proof.
  split; [apply run_iteration_quiet |].
  split; [intros; apply run_quiet |].
  split; [intros; by apply run_interrupted |].
  split; [| intros n; by rewrite steps_config].
  intros fuel [k|] Hr.
  - destruct (decide (k / 2 < fuel)%nat) as [Hk|Hk].
    + rewrite run_interrupted by done. split; [done | eauto].
    + exfalso. apply Hr.
      destruct (loop_not_yet fuel k e cs ltac:(lia)) as [k' Hk'].
      unfold run, try_except_KeyboardInterrupt. cbn [runM]. by rewrite Hk'.
  - exfalso. apply Hr. by rewrite run_quiet.
Qed.

Lemma run_loop_render_sleep_step_witness :
  (3 / 2 < 2)%nat
  /\ runM (run 2) (mkWorld example_engine [] (Some 3%nat))
     = (Returned tt,
        mkWorld (steps (3 / 2) example_engine)
                ([] ++ take 4 (loop_calls (S (3 / 2)) example_engine)
                    ++ [ShowExitMessage (generation (steps (3 / 2) example_engine))])
                None).
Proof.
  split; [vm_compute; lia |].
  apply (proj1 (proj2 (proj2 (run_loop_render_sleep_step example_engine [])))).
  vm_compute; lia.
Defined.

Lemma loop_calls_in (n : nat) (e : GameEngine) (c : ExternalCall) :
  c ∈ loop_calls n e ->
  exists i, (i < n)%nat /\ c ∈ iteration_calls (steps i e).
Proof.
  revert e. induction n as [|n IH]; intros e Hc; [by apply elem_of_nil in Hc |].
  cbn [loop_calls] in Hc. apply elem_of_app in Hc as [Hc | Hc].
  - exists 0%nat. split; [lia | exact Hc].
  - apply IH in Hc as (i & Hi & Hc). exists (S i). split; [lia |].
    by rewrite steps_S, <- steps_after_step.
Qed.

(** *** A step, interrupted or not *)

Lemma interrupt_point_run (signal : option StepPoint) (here : StepPoint)
    (e : GameEngine) :
  runM (interrupt_point signal here) e
  = if bool_decide (signal = Some here)
    then (Raised KeyboardInterrupt, e) else (Returned tt, e).
Proof. unfold interrupt_point. by case_bool_decide. Qed.

Lemma step_interruptible_run (signal : option StepPoint) (e : GameEngine) :
  runM (step_interruptible signal) e
  = match signal with
    | None => (Returned tt, after_step e)
    | Some BeforeGridAssigned => (Raised KeyboardInterrupt, e)
    | Some BetweenAssignments =>
        (Raised KeyboardInterrupt,
         mkGameEngine (grid (after_step e)) (generation e) (config e))
    | Some AfterBothAssigned => (Raised KeyboardInterrupt, after_step e)
    end.
Proof.
  destruct (calculate_next_generation_returns e) as (g' & Hg & _).
  pose proof (step_returns e g' Hg) as Hs.
  unfold after_step. rewrite Hs. cbn [snd grid].
  unfold step_interruptible.
  rewrite runM_bind, interrupt_point_run.
  case_bool_decide as H1; [by subst |].
  rewrite runM_bind, Hg, runM_bind. cbn [modify runM].
  rewrite runM_bind, interrupt_point_run.
  case_bool_decide as H2; [by subst |].
  rewrite runM_bind. cbn [modify runM grid generation config].
  rewrite interrupt_point_run.
  case_bool_decide as H3; [by subst |].
  by destruct signal as [[]|].
Qed.

Lemma step_interruptible_none (e : GameEngine) :
  runM (step_interruptible None) e = runM step e.
Proof. by rewrite step_interruptible_run, step_run. Qed.

Lemma run_iteration_uninterrupted (w : World) :
  runM (run_iteration_interruptible None) w = runM run_iteration w.
Proof.
  unfold run_iteration_interruptible, run_iteration.
  destruct w as [e cs [[|[|k]]|]]; rewrite !runM_bind;
    cbn -[step step_interruptible]; rewrite ?step_interruptible_none;
    reflexivity.
Qed.

Lemma while_true_from_uninterrupted (fuel pass : nat) (w : World) :
  runM (while_true_from fuel pass (fun _ => None)) w
  = runM (while_true fuel run_iteration) w.
Proof.
  revert pass w. induction fuel as [|fuel IH]; intros pass w; [reflexivity |].
  rewrite while_true_S. cbn [while_true_from].
  rewrite !runM_bind, run_iteration_uninterrupted.
  destruct (runM run_iteration w) as [[[]| |] w1]; try reflexivity. apply IH.
Qed.

Lemma run_interruptible_uninterrupted (fuel : nat) (w : World) :
  runM (run_interruptible fuel (fun _ => None)) w = runM (run fuel) w.
Proof.
  unfold run_interruptible, run, try_except_KeyboardInterrupt. cbn [runM].
  by rewrite while_true_from_uninterrupted.
Qed.

Lemma run_iteration_step_interrupted (point : StepPoint) (e : GameEngine)
    (cs : list ExternalCall) :
  runM (run_iteration_interruptible (Some point)) (mkWorld e cs None)
  = (Raised KeyboardInterrupt,
     mkWorld (after_interrupted_step point e) (cs ++ iteration_calls e) None).
Proof.
  unfold run_iteration_interruptible, after_interrupted_step.
  rewrite !runM_bind. cbn -[step_interruptible].
  rewrite step_interruptible_run. unfold iteration_calls.
  destruct point; cbn [fst snd]; by rewrite <- app_assoc.
Qed.

(** With the signal in the step of pass [n], the loop makes the calls of
    [n + 1] passes and raises out of that step. *)
Lemma while_true_from_step_interrupted (fuel n pass : nat)
    (signals : nat -> option StepPoint) (point : StepPoint)
    (e : GameEngine) (cs : list ExternalCall) :
  (forall j, (j < n)%nat -> signals (pass + j)%nat = None) ->
  signals (pass + n)%nat = Some point ->
  (n < fuel)%nat ->
  runM (while_true_from fuel pass signals) (mkWorld e cs None)
  = (Raised KeyboardInterrupt,
     mkWorld (after_interrupted_step point (steps n e))
             (cs ++ loop_calls (S n) e) None).
Proof.
  revert fuel pass e cs. induction n as [|n IH]; intros fuel pass e cs Hq Hp Hf.
  - destruct fuel as [|fuel]; [lia |]. cbn [while_true_from].
    rewrite Nat.add_0_r in Hp.
    rewrite runM_bind, Hp, run_iteration_step_interrupted.
    cbn [loop_calls steps Nat.iter]. by rewrite app_nil_r.
  - destruct fuel as [|fuel]; [lia |]. cbn [while_true_from].
    rewrite runM_bind.
    rewrite <- (Nat.add_0_r pass) at 1. rewrite (Hq 0%nat) by lia.
    rewrite run_iteration_uninterrupted, run_iteration_quiet.
    rewrite (IH fuel (S pass) (after_step e)); [| | | lia].
    + rewrite steps_after_step, <- steps_S.
      change (loop_calls (S (S n)) e)
        with (iteration_calls e ++ loop_calls (S n) (after_step e)).
      by rewrite <- app_assoc.
    + intros j Hj. replace (S pass + j)%nat with (pass + S j)%nat by lia.
      apply Hq. lia.
    + by replace (S pass + n)%nat with (pass + S n)%nat by lia.
Qed.

Lemma run_interruptible_step_interrupted (fuel n : nat)
    (signals : nat -> option StepPoint) (point : StepPoint)
    (e : GameEngine) (cs : list ExternalCall) :
  (forall j, (j < n)%nat -> signals j = None) ->
  signals n = Some point ->
  (n < fuel)%nat ->
  runM (run_interruptible fuel signals) (mkWorld e cs None)
  = (Returned tt,
     mkWorld (after_interrupted_step point (steps n e))
             (cs ++ loop_calls (S n) e
                 ++ [ShowExitMessage
                       (generation (after_interrupted_step point (steps n e)))])
             None).
Proof.
  intros Hq Hp Hf. unfold run_interruptible, try_except_KeyboardInterrupt.
  cbn [runM].
  rewrite (while_true_from_step_interrupted fuel n 0 signals point) by done.
  cbn. by rewrite <- app_assoc.
Qed.

(** C5 (as amended): a call to [step] that runs to completion returns with
    the grid replaced by the newly computed one and the generation by its
    successor, by two assignments, the grid first, and with no call to the
    display in between; the number grows by exactly one with each completed
    call, from 0 in a new engine, and never decreases or skips, interrupted
    or not; what the passes of [run] show the display is the grid and the
    generation of the same number of completed steps.  The replacement is
    not atomic: a [KeyboardInterrupt] raised in [step] before the first
    assignment leaves the engine as it was, one raised between the two
    leaves the new grid with the old generation, and that engine is what
    the handler of [run] reports from and what [run] leaves. *)
Theorem step_assigns_grid_then_generation (e : GameEngine) :
  (exists new_grid,
     runM _calculate_next_generation e = (Returned new_grid, e)
     /\ runM step e
        = (Returned tt, mkGameEngine new_grid (next (generation e)) (config e)))
  /\ runM (step_interruptible None) e = runM step e
  /\ runM (step_interruptible (Some BeforeGridAssigned)) e
     = (Raised KeyboardInterrupt, e)
  /\ runM (step_interruptible (Some BetweenAssignments)) e
     = (Raised KeyboardInterrupt,
        mkGameEngine (grid (after_step e)) (generation e) (config e))
  /\ runM (step_interruptible (Some AfterBothAssigned)) e
     = (Raised KeyboardInterrupt, after_step e)
  /\ number (generation (after_step e)) = number (generation e) + 1
  /\ (forall g c, number (generation (GameEngine_init g c)) = 0)
  /\ (forall n, number (generation (steps n e)) = number (generation e) + Z.of_nat n)
  /\ (forall signal,
        let e' := (runM (step_interruptible signal) e).2 in
        number (generation e') = number (generation e)
        \/ number (generation e') = number (generation e) + 1)
  /\ (forall n g gen, Render g gen ∈ loop_calls n e ->
        exists i, (i < n)%nat /\ g = grid (steps i e) /\ gen = generation (steps i e)
                  /\ number gen = number (generation e) + Z.of_nat i)
  /\ (forall fuel w,
        runM (run_interruptible fuel (fun _ => None)) w = runM (run fuel) w)
  /\ (forall fuel n signals point cs,
        (forall j, (j < n)%nat -> signals j = None) ->
        signals n = Some point -> (n < fuel)%nat ->
        runM (run_interruptible fuel signals) (mkWorld e cs None)
        = (Returned tt,
           mkWorld (after_interrupted_step point (steps n e))
                   (cs ++ loop_calls (S n) e
                       ++ [ShowExitMessage
                             (generation (after_interrupted_step point (steps n e)))])
                   None)).
Proof.
  destruct (calculate_next_generation_returns e) as (g' & Hg & _).
  split; [exists g'; split; [exact Hg | by apply step_returns] |].
  split; [apply step_interruptible_none |].
  split; [apply (step_interruptible_run (Some BeforeGridAssigned)) |].
  split; [apply (step_interruptible_run (Some BetweenAssignments)) |].
  split; [apply (step_interruptible_run (Some AfterBothAssigned)) |].
  split; [rewrite after_step_generation; reflexivity |].
  split; [reflexivity |].
  split; [intros n; apply steps_generation |].
  split.
  { intros signal. rewrite step_interruptible_run.
    destruct signal as [[]|]; cbn [snd generation];
      rewrite ?after_step_generation; cbn [next number]; lia. }
  split.
  { intros n g gen Hin. apply loop_calls_in in Hin as (i & Hi & Hin).
    exists i. split; [done |]. unfold iteration_calls in Hin.
    apply elem_of_cons in Hin as [[= -> ->] | Hin].
    - split; [done | split; [done | apply steps_generation]].
    - apply list_elem_of_singleton in Hin. discriminate. }
  split; [apply run_interruptible_uninterrupted |].
  intros fuel n signals point cs Hq Hp Hf.
  by apply run_interruptible_step_interrupted.
Qed.

Lemma step_assigns_grid_then_generation_witness :
  runM (run_interruptible 2
          (fun pass => if Nat.eqb pass 1 then Some BetweenAssignments else None))
       (mkWorld example_engine [] None)
  = (Returned tt,
     mkWorld (after_interrupted_step BetweenAssignments (steps 1 example_engine))
             ([] ++ loop_calls 2 example_engine
                 ++ [ShowExitMessage
                       (generation (after_interrupted_step BetweenAssignments
                                      (steps 1 example_engine)))])
             None).
Proof.
  apply (proj2 (proj2 (proj2 (proj2 (proj2 (proj2 (proj2 (proj2 (proj2 (proj2 (proj2 (step_assigns_grid_then_generation example_engine)))))))))))
           2%nat 1%nat
           (fun pass => if Nat.eqb pass 1 then Some BetweenAssignments else None)
           BetweenAssignments []).
  - intros j Hj. destruct j; [reflexivity | lia].
  - reflexivity.
  - lia.
Defined.

(** C5 as stated does not hold: interrupted between the two assignments of
    the first [step], [run] returns through its handler and leaves the grid
    of one completed step with the generation of none; no number of steps
    gives both. *)
Lemma step_interrupt_leaves_grid_ahead_of_generation :
  ~ (forall (fuel : nat) (signals : nat -> option StepPoint),
       let w := (runM (run_interruptible fuel signals)
                      (mkWorld example_engine [] None)).2 in
       exists n, grid (engine w) = grid (steps n example_engine)
                 /\ generation (engine w) = generation (steps n example_engine)).
Proof.
  intros H.
  destruct (H 1%nat (fun _ => Some BetweenAssignments)) as (n & Hgrid & Hgen).
  pose proof (run_interruptible_step_interrupted
                1 0 (fun _ => Some BetweenAssignments) BetweenAssignments
                example_engine [] ltac:(intros; lia) eq_refl ltac:(lia)) as Hrun.
  rewrite Hrun in Hgrid, Hgen.
  change (steps 0 example_engine) with example_engine in Hgrid, Hgen.
  cbn [snd engine] in Hgrid, Hgen.
  unfold after_interrupted_step in Hgrid, Hgen.
  rewrite step_interruptible_run in Hgrid, Hgen.
  cbn [snd grid generation] in Hgrid, Hgen.
  apply (f_equal number) in Hgen. rewrite (steps_generation n) in Hgen.
  assert (n = 0%nat) as -> by lia.
  apply (f_equal (fun g => get_cell g (mkPosition 1 2))) in Hgrid.
  vm_compute in Hgrid. discriminate Hgrid.
Qed.

(** ** Patterns *)

Lemma Grid_eq (g g' : Grid) :
  _size g = _size g' -> (forall p, _cells g !! p = _cells g' !! p) -> g = g'.
Proof.
  destruct g as [s m], g' as [s' m']; cbn. intros -> H. f_equal. by apply map_eq.
Qed.

Lemma get_cell_out_of_bounds (g : Grid) (p : Position) :
  contains (size g) p = false -> get_cell g p = dead_cell.
Proof. intros H. rewrite get_cell_lookup. unfold size in H. by rewrite H. Qed.

Lemma all_dead_spec (g : Grid) :
  all_dead g = true <-> forall p, get_cell g p = dead_cell.
Proof.
  unfold all_dead. rewrite forallb_forall. split.
  - intros H p. destruct (contains (size g) p) eqn:E.
    + apply elem_of_all_positions, list_elem_of_In, H in E.
      unfold is_dead in E. destruct (get_cell g p) as [[]]; [discriminate | done].
    + by apply get_cell_out_of_bounds.
  - intros H p _. by rewrite H.
Qed.

Lemma count_all_dead (g : Grid) (p : Position) :
  (forall q, get_cell g q = dead_cell) -> count_living_neighbors g p = 0.
Proof.
  intros H. rewrite count_as_contributions.
  induction (neighbors p) as [|n l IH]; [reflexivity |].
  cbn [foldr]. rewrite IH. unfold contribution. rewrite H. cbn.
  by rewrite andb_false_r.
Qed.

Lemma after_step_get_cell (e : GameEngine) (p : Position) :
  get_cell (grid (after_step e)) p
  = if contains (size (grid e)) p then next_cell (grid e) p else dead_cell.
Proof.
  rewrite get_cell_lookup, after_step_lookup.
  pose proof (after_step_size e) as Hs. unfold size in Hs. rewrite Hs.
  unfold size. by destruct (contains (_size (grid e)) p).
Qed.

Lemma living_cells_spec (g : Grid) (p : Position) :
  p ∈ living_cells g <-> exists c, _cells g !! p = Some c /\ is_alive c = true.
Proof.
  unfold living_cells. rewrite elem_of_dom. unfold is_Some.
  setoid_rewrite map_lookup_filter_Some. cbn. reflexivity.
Qed.

Lemma after_step_all_dead (e : GameEngine) :
  all_dead (grid e) = true -> all_dead (grid (after_step e)) = true.
Proof.
  rewrite !all_dead_spec. intros H p. rewrite after_step_get_cell.
  destruct (contains (size (grid e)) p); [| done].
  unfold next_cell. by rewrite H, count_all_dead.
Qed.

(** C7: a step from a grid whose cells are all dead gives a grid whose
    cells are all dead, with no living cell stored; so it is after any
    number of steps. *)
Theorem all_dead_stays_all_dead (e : GameEngine) :
  all_dead (grid e) = true ->
  all_dead (grid (after_step e)) = true
  /\ living_cells (grid (after_step e)) = ∅
  /\ (forall p, get_cell (grid (after_step e)) p = dead_cell)
  /\ (forall n, all_dead (grid (steps n e)) = true
                /\ forall p, get_cell (grid (steps n e)) p = dead_cell).
Proof.
  intros H. pose proof (after_step_all_dead e H) as H1.
  split; [exact H1 |]. split; [| split].
  - apply set_eq. intros p. rewrite living_cells_spec, elem_of_empty.
    split; [| done]. intros (c & Hl & Hc).
    rewrite after_step_lookup in Hl.
    destruct (contains (size (grid e)) p); [| discriminate].
    injection Hl as <-. apply all_dead_spec with (p := p) in H as Hp.
    unfold next_cell in Hc. rewrite Hp, count_all_dead in Hc; [discriminate |].
    by apply all_dead_spec.
  - by apply all_dead_spec.
  - intros n. enough (all_dead (grid (steps n e)) = true) as Hn.
    { split; [exact Hn | by apply all_dead_spec]. }
    induction n as [|n IH]; [exact H |].
    rewrite steps_S. by apply after_step_all_dead.
Qed.

Lemma all_dead_stays_all_dead_witness :
  all_dead (grid (GameEngine_init (Grid_init (mkGridSize 4 3)) example_config)) = true
  /\ all_dead (grid (steps 7 (GameEngine_init (Grid_init (mkGridSize 4 3))
                                             example_config))) = true.
Proof.
  split; [reflexivity |].
  apply (proj2 (proj2 (proj2 (all_dead_stays_all_dead
           (GameEngine_init (Grid_init (mkGridSize 4 3)) example_config)
           ltac:(reflexivity)))) 7%nat).
Defined.

(** *** Seeded grids *)

Lemma seed_returns (gs : GridSize) (cells : list Position) :
  Forall (fun p => contains gs p = true) cells ->
  seed gs cells
  = (Returned tt,
     mkGrid gs (foldl (fun m x => <[x := alive_cell]> m)
                      (_cells (Grid_init gs)) cells)).
Proof.
  intros H. unfold seed.
  rewrite (for_each_set_cell (fun _ => alive_cell)), Grid_init_size; [done |].
  by rewrite Grid_init_size.
Qed.

Lemma grid_with_size (gs : GridSize) (cells : list Position) :
  Forall (fun p => contains gs p = true) cells -> size (grid_with gs cells) = gs.
Proof. intros H. unfold grid_with. by rewrite seed_returns. Qed.

Lemma grid_with_lookup (gs : GridSize) (cells : list Position) (p : Position) :
  Forall (fun p => contains gs p = true) cells ->
  _cells (grid_with gs cells) !! p
  = if contains gs p then Some (mkCell (bool_decide (p ∈ cells))) else None.
Proof.
  intros H. unfold grid_with. rewrite seed_returns by done. cbn [snd _cells].
  rewrite (foldl_insert_lookup (fun _ => alive_cell)), Grid_init_lookup.
  case_bool_decide as Hp; [| done].
  rewrite Forall_forall in H. by rewrite (H p Hp).
Qed.

Lemma grid_with_get_cell (gs : GridSize) (cells : list Position) (p : Position) :
  Forall (fun p => contains gs p = true) cells ->
  get_cell (grid_with gs cells) p = mkCell (bool_decide (p ∈ cells)).
Proof.
  intros H. rewrite get_cell_lookup, grid_with_lookup by done.
  pose proof (grid_with_size gs cells H) as Hs. unfold size in Hs. rewrite Hs.
  destruct (contains gs p) eqn:E; [done |].
  rewrite bool_decide_eq_false_2; [done |].
  intros Hp. rewrite Forall_forall in H. apply H in Hp. congruence.
Qed.

Lemma grid_with_contribution (gs : GridSize) (cells : list Position) (n : Position) :
  Forall (fun p => contains gs p = true) cells ->
  contribution (grid_with gs cells) n = if bool_decide (n ∈ cells) then 1 else 0.
Proof.
  intros H. unfold contribution.
  rewrite grid_with_get_cell, grid_with_size by done. cbn.
  case_bool_decide as Hn; [| by rewrite andb_false_r].
  rewrite Forall_forall in H. by rewrite (H n Hn).
Qed.

Lemma grid_with_living_cells (gs : GridSize) (cells : list Position) :
  Forall (fun p => contains gs p = true) cells ->
  living_cells (grid_with gs cells) = list_to_set cells.
Proof.
  intros H. apply set_eq. intros p.
  rewrite living_cells_spec, elem_of_list_to_set, grid_with_lookup by done.
  split.
  - intros (c & Hl & Hc). destruct (contains gs p); [| discriminate].
    injection Hl as <-. cbn in Hc. by apply bool_decide_eq_true in Hc.
  - intros Hp. rewrite Forall_forall in H. rewrite (H p Hp).
    eexists. split; [reflexivity |]. cbn. by apply bool_decide_eq_true.
Qed.

(** A step from a seeded grid, computed on the lists of living cells. *)
Lemma after_step_grid_with (gs : GridSize) (cells cells' : list Position)
    (gen : Generation) (cfg : GameConfig) :
  Forall (fun p => contains gs p = true) cells ->
  Forall (fun p => contains gs p = true) cells' ->
  (forall p, calculate_next_state
               (mkCell (bool_decide (p ∈ cells)))
               (foldr (fun n acc => (if bool_decide (n ∈ cells) then 1 else 0) + acc)
                      0 (neighbors p))
             = mkCell (bool_decide (p ∈ cells'))) ->
  grid (after_step (mkGameEngine (grid_with gs cells) gen cfg)) = grid_with gs cells'.
Proof.
  intros H H' Hrule. apply Grid_eq.
  - pose proof (after_step_size (mkGameEngine (grid_with gs cells) gen cfg)) as Hs.
    pose proof (grid_with_size gs cells H) as H1.
    pose proof (grid_with_size gs cells' H') as H2.
    unfold size in *. cbn [grid] in Hs. congruence.
  - intros p. rewrite after_step_lookup, grid_with_lookup by done. cbn [grid].
    rewrite grid_with_size by done.
    destruct (contains gs p); [| done]. f_equal.
    unfold next_cell. rewrite grid_with_get_cell by done.
    rewrite count_as_contributions, <- Hrule. f_equal.
    induction (neighbors p) as [|n l IH]; [reflexivity |].
    cbn [foldr]. by rewrite IH, grid_with_contribution.
Qed.

(** *** The blinker *)

Lemma in_horizontal_line (p : Position) (r c : Z) :
  p ∈ horizontal_line r c <-> row p = r /\ c - 1 <= col p <= c + 1.
Proof.
  unfold horizontal_line.
  rewrite !elem_of_cons, elem_of_nil, !Position_eq. cbn [row col]. lia.
Qed.

Lemma in_vertical_line (p : Position) (r c : Z) :
  p ∈ vertical_line r c <-> col p = c /\ r - 1 <= row p <= r + 1.
Proof.
  unfold vertical_line.
  rewrite !elem_of_cons, elem_of_nil, !Position_eq. cbn [row col]. lia.
Qed.

Ltac line_membership :=
  first [ apply in_horizontal_line | apply in_vertical_line
        | let H := fresh in intros H; apply in_horizontal_line in H; revert H
        | let H := fresh in intros H; apply in_vertical_line in H; revert H ];
  cbn [row col]; lia.

Ltac decide_memberships :=
  repeat match goal with
  | |- context [bool_decide (?n ∈ ?l)] =>
      first [ rewrite (bool_decide_eq_true_2 (n ∈ l)) by line_membership
            | rewrite (bool_decide_eq_false_2 (n ∈ l)) by line_membership ]
  end.

(** Where a coordinate lies relative to the line: on it or next to it,
    within reach of its ends, or further away. *)
Ltac across x c :=
  assert (x < c - 1 \/ x = c - 1 \/ x = c \/ x = c + 1 \/ c + 1 < x)
    as [?|[?|[?|[?|?]]]] by lia.
Ltac along x c :=
  assert (x < c - 2 \/ x = c - 2 \/ x = c - 1 \/ x = c \/ x = c + 1
          \/ x = c + 2 \/ c + 2 < x) as [?|[?|[?|[?|[?|[?|?]]]]]] by lia.

Lemma horizontal_to_vertical (r c : Z) (p : Position) :
  calculate_next_state
    (mkCell (bool_decide (p ∈ horizontal_line r c)))
    (foldr (fun n acc => (if bool_decide (n ∈ horizontal_line r c) then 1 else 0) + acc)
           0 (neighbors p))
  = mkCell (bool_decide (p ∈ vertical_line r c)).
Proof.
  rewrite neighbors_unfold. cbn [foldr].
  across (row p) r; along (col p) c; decide_memberships; reflexivity.
Qed.

Lemma vertical_to_horizontal (r c : Z) (p : Position) :
  calculate_next_state
    (mkCell (bool_decide (p ∈ vertical_line r c)))
    (foldr (fun n acc => (if bool_decide (n ∈ vertical_line r c) then 1 else 0) + acc)
           0 (neighbors p))
  = mkCell (bool_decide (p ∈ horizontal_line r c)).
Proof.
  rewrite neighbors_unfold. cbn [foldr].
  along (row p) r; across (col p) c; decide_memberships; reflexivity.
Qed.

Lemma horizontal_line_in_bounds (gs : GridSize) (r c : Z) :
  0 <= r < height gs -> 1 <= c < width gs - 1 ->
  Forall (fun p => contains gs p = true) (horizontal_line r c).
Proof.
  intros Hr Hc. unfold horizontal_line.
  repeat (apply Forall_cons; split; [apply contains_spec; cbn; lia |]).
  apply Forall_nil_2.
Qed.

Lemma vertical_line_in_bounds (gs : GridSize) (r c : Z) :
  1 <= r < height gs - 1 -> 0 <= c < width gs ->
  Forall (fun p => contains gs p = true) (vertical_line r c).
Proof.
  intros Hr Hc. unfold vertical_line.
  repeat (apply Forall_cons; split; [apply contains_spec; cbn; lia |]).
  apply Forall_nil_2.
Qed.

(** C6: in a grid seeded with three cells alive in a row around [(r, c)],
    away from the edges (the row and the column of three around [(r, c)]
    both lie in the grid, as they do around the centre of any grid of at
    least 3 x 3), a step gives the grid with the three cells of the column
    around [(r, c)] alive, and a second step gives back the seeded grid. *)
Theorem blinker_period_two (gs : GridSize) (r c : Z)
    (gen : Generation) (cfg : GameConfig) :
  1 <= r < height gs - 1 -> 1 <= c < width gs - 1 ->
  let e := mkGameEngine (grid_with gs (horizontal_line r c)) gen cfg in
  seed gs (horizontal_line r c) = (Returned tt, grid e)
  /\ living_cells (grid e) = list_to_set (horizontal_line r c)
  /\ grid (after_step e) = grid_with gs (vertical_line r c)
  /\ living_cells (grid (after_step e)) = list_to_set (vertical_line r c)
  /\ grid (after_step (after_step e)) = grid e
  /\ grid (after_step e) <> grid e.
Proof.
  intros Hr Hc e.
  pose proof (horizontal_line_in_bounds gs r c ltac:(lia) Hc) as Hh.
  pose proof (vertical_line_in_bounds gs r c Hr ltac:(lia)) as Hv.
  assert (grid (after_step e) = grid_with gs (vertical_line r c)) as H1.
  { apply after_step_grid_with; [done | done |]. apply horizontal_to_vertical. }
  split; [| split; [| split; [| split; [| split]]]].
  - subst e. cbn [grid]. unfold grid_with. by rewrite seed_returns.
  - by apply grid_with_living_cells.
  - exact H1.
  - rewrite H1. by apply grid_with_living_cells.
  - destruct (after_step e) as [g1 gen1 cfg1] eqn:E1. cbn [grid] in H1. subst g1.
    subst e. cbn [grid].
    apply after_step_grid_with; [done | done |]. apply vertical_to_horizontal.
  - rewrite H1. subst e. cbn [grid]. intros Heq.
    assert (get_cell (grid_with gs (vertical_line r c)) (mkPosition (r - 1) c)
            = get_cell (grid_with gs (horizontal_line r c)) (mkPosition (r - 1) c))
      as Hcell by (by rewrite Heq).
    rewrite !grid_with_get_cell in Hcell by done.
    rewrite (bool_decide_eq_true_2 (_ ∈ vertical_line r c)) in Hcell
      by line_membership.
    rewrite (bool_decide_eq_false_2 (_ ∈ horizontal_line r c)) in Hcell
      by line_membership.
    discriminate.
Qed.

Lemma blinker_period_two_witness :
  grid (after_step example_engine)
  = grid_with (mkGridSize 5 5) [mkPosition 1 2; mkPosition 2 2; mkPosition 3 2]
  /\ grid (after_step (after_step example_engine)) = grid example_engine.
Proof.
  pose proof (blinker_period_two (mkGridSize 5 5) 2 2 (mkGeneration 0) example_config
                ltac:(cbn; lia) ltac:(cbn; lia)) as (_ & _ & H1 & _ & H2 & _).
  split; [exact H1 | exact H2].
Defined.


(** * Further properties of the code *)

(** ** Position.neighbors *)

Lemma elem_of_neighbors (p q : Position) :
  q ∈ neighbors p <->
  q <> p /\ -1 <= row q - row p <= 1 /\ -1 <= col q - col p <= 1.
Proof.
  rewrite neighbors_unfold, !elem_of_cons, elem_of_nil, !Position_eq.
  cbn [row col]. lia.
Qed.

(** X1: [neighbors] is the Moore neighbourhood: [q] is a neighbour of [p]
    exactly when it differs from [p] by at most one row and one column and
    is not [p]; so no position is its own neighbour, and [q] is a neighbour
    of [p] exactly when [p] is one of [q]. *)
Theorem neighbors_symmetric (p q : Position) :
  (q ∈ neighbors p <->
     q <> p /\ -1 <= row q - row p <= 1 /\ -1 <= col q - col p <= 1)
  /\ (p ∉ neighbors p)
  /\ (q ∈ neighbors p <-> p ∈ neighbors q).
Proof.
  split; [apply elem_of_neighbors |]. split.
  - rewrite elem_of_neighbors. tauto.
  - rewrite !elem_of_neighbors. split; intros (Hne & Hr & Hc);
      (split; [congruence | lia]).
Qed.

(** ** GridSize without positions *)

Lemma range_nonpositive (n : Z) : n <= 0 -> range n = [].
Proof. intros H. unfold range. by replace (Z.to_nat n) with 0%nat by lia. Qed.

Lemma all_positions_degenerate (gs : GridSize) :
  width gs <= 0 \/ height gs <= 0 -> all_positions gs = [].
Proof.
  intros [Hw | Hh]; rewrite all_positions_rows.
  - rewrite (range_nonpositive (width gs)) by done.
    induction (range (height gs)) as [|r l IH]; [done |].
    by rewrite bind_cons, IH.
  - by rewrite (range_nonpositive (height gs)).
Qed.

(** X2: the size class does not reject a width or height of zero or less;
    such a size has no positions and contains none, a grid of that size
    stores nothing, every [set_cell] on it raises, every cell read from it
    is dead, and a step gives the same empty grid. *)
Theorem degenerate_size_is_empty (gs : GridSize) (p : Position) (c : Cell)
    (gen : Generation) (cfg : GameConfig) :
  width gs <= 0 \/ height gs <= 0 ->
  all_positions gs = []
  /\ contains gs p = false
  /\ Grid_init gs = mkGrid gs ∅
  /\ runM (set_cell p c) (Grid_init gs)
     = (Raised (ValueError ("Position " +:+ Position_str p +:+ " out of bounds")),
        Grid_init gs)
  /\ get_cell (Grid_init gs) p = dead_cell
  /\ grid (after_step (mkGameEngine (Grid_init gs) gen cfg)) = Grid_init gs.
Proof.
  intros H.
  assert (forall q, contains gs q = false) as Hc.
  { intros q. destruct (contains gs q) eqn:E; [| done].
    apply contains_spec in E. lia. }
  assert (Grid_init gs = mkGrid gs ∅) as Hi.
  { by rewrite Grid_init_eq, all_positions_degenerate. }
  split; [by apply all_positions_degenerate |]. split; [apply Hc |].
  split; [exact Hi |]. split; [| split].
  - apply set_cell_out. rewrite Grid_init_size. apply Hc.
  - apply get_cell_out_of_bounds. unfold size. rewrite Grid_init_size. apply Hc.
  - apply Grid_eq.
    + pose proof (after_step_size (mkGameEngine (Grid_init gs) gen cfg)) as Hs.
      unfold size in Hs. exact Hs.
    + intros q. rewrite after_step_lookup. cbn [grid]. unfold size.
      rewrite Grid_init_size, Hc, Hi. cbn. by rewrite lookup_empty.
Qed.

Lemma degenerate_size_is_empty_witness :
  all_positions (mkGridSize 0 5) = []
  /\ contains (mkGridSize 0 5) (mkPosition 0 0) = false.
Proof.
  pose proof (degenerate_size_is_empty (mkGridSize 0 5) (mkPosition 0 0) alive_cell
                (mkGeneration 0) example_config ltac:(left; cbn; lia))
    as (H1 & H2 & _).
  split; [exact H1 | exact H2].
Defined.

(** ** The grid's dictionary *)

Lemma well_formed_lookup (g : Grid) (p : Position) :
  well_formed g ->
  _cells g !! p = if contains (size g) p then Some (get_cell g p) else None.
Proof.
  intros Hwf. rewrite get_cell_lookup. unfold size.
  destruct (contains (_size g) p) eqn:E.
  - apply Hwf in E as [c Hc]. by rewrite Hc.
  - apply eq_None_not_Some. intros H. apply Hwf in H. unfold size in H. congruence.
Qed.

Lemma Grid_init_well_formed (gs : GridSize) : well_formed (Grid_init gs).
Proof.
  intros p. unfold size. rewrite Grid_init_lookup, Grid_init_size.
  destruct (contains gs p); [by split; eauto | split; [by intros [? ?] | done]].
Qed.

Lemma dom_well_formed (g : Grid) :
  well_formed g -> dom (_cells g) = list_to_set (all_positions (size g)).
Proof.
  intros Hwf. apply set_eq. intros p.
  by rewrite elem_of_dom, elem_of_list_to_set, elem_of_all_positions.
Qed.

Lemma well_formed_cells_count (g : Grid) :
  well_formed g -> base.size (_cells g) = length (all_positions (size g)).
Proof.
  intros Hwf. rewrite <- size_dom, (dom_well_formed g Hwf).
  apply size_list_to_set, NoDup_all_positions.
Qed.

Lemma Grid_init_living_cells (gs : GridSize) : living_cells (Grid_init gs) = ∅.
Proof.
  apply set_eq. intros p. rewrite living_cells_spec, elem_of_empty.
  split; [| done]. intros (c & Hl & Hc). rewrite Grid_init_lookup in Hl.
  destruct (contains gs p); [| done]. by injection Hl as <-.
Qed.

(** X3: a new grid stores exactly one cell for each position of its size,
    all of them dead: the dictionary has [width * height] entries when both
    are positive, nothing outside the bounds, and no living cell. *)
Theorem Grid_init_all_dead (gs : GridSize) :
  size (Grid_init gs) = gs
  /\ (forall p, _cells (Grid_init gs) !! p
                = if contains gs p then Some dead_cell else None)
  /\ well_formed (Grid_init gs)
  /\ base.size (_cells (Grid_init gs)) = length (all_positions gs)
  /\ (0 < width gs -> 0 < height gs ->
      Z.of_nat (base.size (_cells (Grid_init gs))) = width gs * height gs)
  /\ living_cells (Grid_init gs) = ∅
  /\ all_dead (Grid_init gs) = true.
Proof.
  pose proof (Grid_init_well_formed gs) as Hwf.
  pose proof (well_formed_cells_count _ Hwf) as Hn.
  unfold size in Hn |- *. rewrite Grid_init_size in Hn |- *.
  split; [done |]. split; [apply Grid_init_lookup |]. split; [done |].
  split; [done |]. split; [| split].
  - intros Hw Hh. rewrite Hn, length_all_positions. nia.
  - apply Grid_init_living_cells.
  - apply all_dead_spec. intros p. rewrite get_cell_lookup, Grid_init_size.
    rewrite Grid_init_lookup. by destruct (contains gs p).
Qed.

Lemma Grid_init_all_dead_witness :
  Z.of_nat (base.size (_cells (Grid_init (mkGridSize 4 3)))) = 4 * 3.
Proof.
  apply (Grid_init_all_dead (mkGridSize 4 3)); cbn; lia.
Defined.

Lemma store_cell_well_formed (g : Grid) (p : Position) (c : Cell) :
  contains (size g) p = true -> well_formed g -> well_formed (store_cell p c g).
Proof.
  intros Hp Hwf q. unfold store_cell, size. cbn [_cells _size].
  destruct (decide (q = p)) as [-> | Hne].
  - rewrite lookup_insert_eq. split; [done | eauto].
  - rewrite lookup_insert_ne by done. apply Hwf.
Qed.

(** X4: [set_cell] keeps the dictionary in step with the size: from a grid
    that holds a cell for exactly the positions of its size, a call leaves
    such a grid again, with the same size and as many entries, whether it
    returns or raises. *)
Theorem set_cell_keeps_well_formed (g : Grid) (p : Position) (c : Cell) :
  well_formed g ->
  well_formed (runM (set_cell p c) g).2
  /\ size (runM (set_cell p c) g).2 = size g
  /\ dom (_cells (runM (set_cell p c) g).2) = dom (_cells g).
Proof.
  intros Hwf. destruct (contains (size g) p) eqn:E; unfold size in E.
  - rewrite (set_cell_in _ _ _ E). cbn [snd].
    split; [by apply store_cell_well_formed |]. split; [done |].
    unfold store_cell. cbn [_cells]. rewrite dom_insert_L.
    apply subseteq_union_1_L, singleton_subseteq_l, elem_of_dom, Hwf.
    exact E.
  - by rewrite (set_cell_out _ _ _ E).
Qed.

Lemma set_cell_keeps_well_formed_witness :
  well_formed (runM (set_cell (mkPosition 1 1) alive_cell)
                    (Grid_init (mkGridSize 2 2))).2.
Proof.
  apply (set_cell_keeps_well_formed (Grid_init (mkGridSize 2 2))
           (mkPosition 1 1) alive_cell).
  apply Grid_init_well_formed.
Defined.

(** X5: of two writes to the same position the last one wins, and writes to
    different positions of the grid can be made in either order. *)
Theorem set_cell_overwrites_and_commutes (g : Grid) (p q : Position) (c d : Cell) :
  contains (size g) p = true -> contains (size g) q = true ->
  runM (set_cell p c;; set_cell p d) g = runM (set_cell p d) g
  /\ (p <> q ->
      runM (set_cell p c;; set_cell q d) g = runM (set_cell q d;; set_cell p c) g).
Proof.
  intros Hp Hq. unfold size in *. split.
  - rewrite runM_bind, (set_cell_in g p c Hp).
    rewrite (set_cell_in (store_cell p c g) p d) by done.
    rewrite (set_cell_in g p d Hp). unfold store_cell. cbn [_size _cells].
    by rewrite insert_insert_eq.
  - intros Hne. rewrite !runM_bind, (set_cell_in g p c Hp), (set_cell_in g q d Hq).
    rewrite (set_cell_in (store_cell p c g) q d) by done.
    rewrite (set_cell_in (store_cell q d g) p c) by done.
    unfold store_cell. cbn [_size _cells]. by rewrite insert_insert_ne.
Qed.

Lemma set_cell_overwrites_and_commutes_witness :
  runM (set_cell (mkPosition 0 1) alive_cell;; set_cell (mkPosition 0 1) dead_cell)
       (Grid_init (mkGridSize 2 2))
  = runM (set_cell (mkPosition 0 1) dead_cell) (Grid_init (mkGridSize 2 2)).
Proof.
  apply (proj1 (set_cell_overwrites_and_commutes (Grid_init (mkGridSize 2 2))
                  (mkPosition 0 1) (mkPosition 0 1) alive_cell dead_cell
                  ltac:(reflexivity) ltac:(reflexivity))).
Defined.

Lemma living_cells_well_formed (g : Grid) (p : Position) :
  well_formed g -> (p ∈ living_cells g <-> is_alive (get_cell g p) = true).
Proof.
  intros Hwf. rewrite living_cells_spec, (well_formed_lookup g p Hwf). split.
  - intros (c & Hl & Hc). destruct (contains (size g) p); [| done].
    by injection Hl as ->.
  - intros Ha. destruct (contains (size g) p) eqn:E; [eauto |].
    by rewrite (get_cell_out_of_bounds g p E) in Ha.
Qed.

(** X6: in a grid that holds a cell for exactly the positions of its size,
    [living_cells] is the set of positions whose cell reads alive; writing
    an alive cell adds the position to it and writing a dead one removes
    it, all other members staying. *)
Theorem living_cells_tracks_set_cell (g : Grid) (p : Position) (c : Cell) :
  well_formed g -> contains (size g) p = true ->
  (forall q, q ∈ living_cells g <-> is_alive (get_cell g q) = true)
  /\ living_cells (runM (set_cell p c) g).2
     = if is_alive c then {[p]} ∪ living_cells g else living_cells g ∖ {[p]}.
Proof.
  intros Hwf Hp. split; [intros q; by apply living_cells_well_formed |].
  unfold size in Hp. rewrite (set_cell_in g p c Hp). cbn [snd].
  apply set_eq. intros q.
  rewrite living_cells_spec. unfold store_cell. cbn [_cells].
  destruct (decide (q = p)) as [-> | Hne].
  - rewrite lookup_insert_eq. destruct c as [[]]; cbn.
    + rewrite elem_of_union, elem_of_singleton. split; [auto | eauto].
    + rewrite elem_of_difference, elem_of_singleton.
      split; [by intros (c & [= <-] & Hc) | tauto].
  - rewrite lookup_insert_ne by done. rewrite <- living_cells_spec.
    destruct (is_alive c).
    + rewrite elem_of_union, elem_of_singleton. tauto.
    + rewrite elem_of_difference, elem_of_singleton. tauto.
Qed.

Lemma living_cells_tracks_set_cell_witness :
  living_cells (runM (set_cell (mkPosition 1 0) alive_cell)
                     (Grid_init (mkGridSize 2 2))).2
  = {[mkPosition 1 0]} ∪ living_cells (Grid_init (mkGridSize 2 2)).
Proof.
  apply (proj2 (living_cells_tracks_set_cell (Grid_init (mkGridSize 2 2))
                  (mkPosition 1 0) alive_cell
                  (Grid_init_well_formed (mkGridSize 2 2)) ltac:(reflexivity))).
Defined.

(** ** What a step keeps *)

Lemma after_step_well_formed (e : GameEngine) : well_formed (grid (after_step e)).
Proof.
  intros p. rewrite after_step_lookup, after_step_size.
  destruct (contains (size (grid e)) p); [by split; eauto | split; [by intros [? ?] | done]].
Qed.

Lemma steps_size (n : nat) (e : GameEngine) :
  size (grid (steps n e)) = size (grid e).
Proof.
  induction n as [|n IH]; [done |]. by rewrite steps_S, after_step_size.
Qed.

(** X7: a step never changes the size of the grid or the configuration, and
    the grid it builds holds a cell for exactly the positions of that size,
    whatever the dictionary of the old grid held; so it is after any number
    of steps. *)
Theorem step_keeps_size (e : GameEngine) (n : nat) :
  size (grid (steps n e)) = size (grid e)
  /\ config (steps n e) = config e
  /\ well_formed (grid (steps (S n) e))
  /\ base.size (_cells (grid (steps (S n) e)))
     = length (all_positions (size (grid e))).
Proof.
  split; [apply steps_size |]. split; [apply steps_config |].
  assert (well_formed (grid (steps (S n) e))) as Hwf
    by (rewrite steps_S; apply after_step_well_formed).
  split; [exact Hwf |].
  by rewrite (well_formed_cells_count _ Hwf), steps_size.
Qed.

Lemma count_get_cell_ext (g g' : Grid) (p : Position) :
  size g' = size g ->
  (forall q, q ∈ neighbors p -> get_cell g' q = get_cell g q) ->
  count_living_neighbors g' p = count_living_neighbors g p.
Proof.
  intros Hs Hc. rewrite !count_as_contributions.
  induction (neighbors p) as [|n l IH]; [reflexivity |].
  cbn [foldr]. rewrite IH by (intros q Hq; apply Hc; by right).
  f_equal. unfold contribution. rewrite Hs, Hc by left. reflexivity.
Qed.

(** X8: the next cell of a position depends only on what [get_cell] reads
    at the position and at its eight neighbours; so two grids of the same
    size that read the same at every position step to the same grid, even
    if their dictionaries differ. *)
Theorem step_depends_on_neighbourhood (e e' : GameEngine) (p : Position) :
  size (grid e') = size (grid e) ->
  (get_cell (grid e') p = get_cell (grid e) p ->
   (forall q, q ∈ neighbors p -> get_cell (grid e') q = get_cell (grid e) q) ->
   get_cell (grid (after_step e')) p = get_cell (grid (after_step e)) p)
  /\ ((forall q, get_cell (grid e') q = get_cell (grid e) q) ->
      grid (after_step e') = grid (after_step e)).
Proof.
  intros Hs. split.
  - intros Hp Hn. rewrite !after_step_get_cell, Hs. unfold next_cell.
    by rewrite Hp, (count_get_cell_ext (grid e) (grid e') p Hs Hn).
  - intros Hall. apply Grid_eq.
    + pose proof (after_step_size e) as H1. pose proof (after_step_size e') as H2.
      unfold size in *. congruence.
    + intros q. rewrite !after_step_lookup, Hs. unfold next_cell.
      rewrite Hall, (count_get_cell_ext (grid e) (grid e') q Hs); [done |].
      intros; apply Hall.
Qed.

Lemma step_depends_on_neighbourhood_witness :
  grid (after_step (mkGameEngine
                      (mkGrid (mkGridSize 2 2)
                              (<[mkPosition 5 5 := alive_cell]>
                                 (_cells (Grid_init (mkGridSize 2 2)))))
                      (mkGeneration 0) example_config))
  = grid (after_step (GameEngine_init (Grid_init (mkGridSize 2 2)) example_config)).
Proof.
  apply (proj2 (step_depends_on_neighbourhood
                  (GameEngine_init (Grid_init (mkGridSize 2 2)) example_config)
                  (mkGameEngine
                     (mkGrid (mkGridSize 2 2)
                             (<[mkPosition 5 5 := alive_cell]>
                                (_cells (Grid_init (mkGridSize 2 2)))))
                     (mkGeneration 0) example_config)
                  (mkPosition 0 0) ltac:(reflexivity))).
  intros q. rewrite !get_cell_lookup. cbn [grid GameEngine_init _size _cells].
  rewrite Grid_init_size.
  destruct (contains (mkGridSize 2 2) q) eqn:E; [| done].
  rewrite lookup_insert_ne; [done |]. intros <-. discriminate.
Defined.

(** ** Patterns *)

Lemma in_box_spec (r0 r1 c0 c1 : Z) (p : Position) :
  in_box r0 r1 c0 c1 p = true <-> r0 <= row p <= r1 /\ c0 <= col p <= c1.
Proof. unfold in_box. lia. Qed.

Lemma elem_of_box (r0 r1 c0 c1 : Z) (p : Position) :
  p ∈ box r0 r1 c0 c1 <-> r0 <= row p <= r1 /\ c0 <= col p <= c1.
Proof.
  unfold box. rewrite list_elem_of_bind. split.
  - intros (r & Hp & Hr). apply list_elem_of_bind in Hp as (c & Hp & Hc).
    apply list_elem_of_singleton in Hp as ->.
    apply elem_of_seqZ in Hr, Hc. cbn. lia.
  - intros [Hr Hc]. exists (row p). split; [| apply elem_of_seqZ; lia].
    apply list_elem_of_bind. exists (col p). split; [| apply elem_of_seqZ; lia].
    apply list_elem_of_singleton. by destruct p.
Qed.

Lemma lives_next_far (cells : list Position) (p : Position) :
  p ∉ cells -> (forall n, n ∈ neighbors p -> n ∉ cells) ->
  lives_next cells p = dead_cell.
Proof.
  intros Hp Hn. unfold lives_next. rewrite bool_decide_eq_false_2 by done.
  enough (foldr (fun n acc => (if bool_decide (n ∈ cells) then 1 else 0) + acc)
                0 (neighbors p) = 0) as -> by reflexivity.
  induction (neighbors p) as [|n l IH]; [reflexivity |].
  cbn [foldr]. rewrite IH by (intros; apply Hn; by right).
  rewrite bool_decide_eq_false_2; [done | apply Hn; by left].
Qed.

Lemma evolves_to_sound (cells cells' : list Position) (r0 r1 c0 c1 : Z) :
  evolves_to cells cells' r0 r1 c0 c1 = true ->
  Forall (fun q => in_box r0 r1 c0 c1 q = true) cells
  /\ Forall (fun q => in_box r0 r1 c0 c1 q = true) cells'
  /\ forall p, lives_next cells p = mkCell (bool_decide (p ∈ cells')).
Proof.
  unfold evolves_to. rewrite !andb_true_iff, !forallb_forall.
  intros [[Hin Hin'] Hbox].
  assert (Forall (fun q => in_box r0 r1 c0 c1 q = true) cells) as Hc
    by (apply Forall_forall; intros q Hq; by apply Hin, list_elem_of_In).
  assert (Forall (fun q => in_box r0 r1 c0 c1 q = true) cells') as Hc'
    by (apply Forall_forall; intros q Hq; by apply Hin', list_elem_of_In).
  split; [done |]. split; [done |]. intros p.
  destruct (decide (p ∈ box (r0 - 1) (r1 + 1) (c0 - 1) (c1 + 1))) as [Hp | Hp].
  - apply list_elem_of_In, Hbox in Hp. by apply bool_decide_eq_true in Hp.
  - rewrite elem_of_box in Hp. rewrite Forall_forall in Hc, Hc'.
    rewrite lives_next_far, bool_decide_eq_false_2; [done | | |].
    + intros Hq. apply Hc', in_box_spec in Hq. lia.
    + intros Hq. apply Hc, in_box_spec in Hq. lia.
    + intros n Hn Hq. apply elem_of_neighbors in Hn.
      apply Hc, in_box_spec in Hq. lia.
Qed.

#[global] Instance translate_inj (dr dc : Z) : Inj (=) (=) (translate dr dc).
Proof.
  intros p q H. apply Position_eq. apply Position_eq in H. cbn in H. lia.
Qed.

Lemma translate_back (dr dc : Z) (p : Position) :
  translate dr dc (translate (- dr) (- dc) p) = p.
Proof. apply Position_eq. cbn. lia. Qed.

Lemma neighbors_translate (dr dc : Z) (p : Position) :
  neighbors (translate dr dc p) = translate dr dc <$> neighbors p.
Proof.
  rewrite !neighbors_unfold. cbn [fmap list_fmap translate row col].
  repeat (f_equal; try (apply Position_eq; cbn; lia)).
Qed.

Lemma lives_next_translate (dr dc : Z) (cells : list Position) (p : Position) :
  lives_next (translate dr dc <$> cells) (translate dr dc p) = lives_next cells p.
Proof.
  unfold lives_next. rewrite neighbors_translate.
  rewrite (bool_decide_ext _ (p ∈ cells)) by apply (list_elem_of_fmap_inj _).
  f_equal. induction (neighbors p) as [|n l IH]; [reflexivity |].
  rewrite fmap_cons. cbn [foldr]. rewrite IH.
  by rewrite (bool_decide_ext _ (n ∈ cells)) by apply (list_elem_of_fmap_inj _).
Qed.

Lemma after_step_grid_only (e e' : GameEngine) :
  grid e' = grid e -> grid (after_step e') = grid (after_step e).
Proof.
  intros H. apply Grid_eq.
  - pose proof (after_step_size e) as H1. pose proof (after_step_size e') as H2.
    unfold size in *. congruence.
  - intros q. by rewrite !after_step_lookup, H.
Qed.

(** A pattern that evolves to another on the plane does so in a grid that
    contains both, wherever it is put. *)
Lemma pattern_step (gs : GridSize) (cells cells' : list Position)
    (r0 r1 c0 c1 dr dc : Z) (e : GameEngine) :
  evolves_to cells cells' r0 r1 c0 c1 = true ->
  0 <= r0 + dr -> r1 + dr < height gs -> 0 <= c0 + dc -> c1 + dc < width gs ->
  grid e = grid_with gs (translate dr dc <$> cells) ->
  grid (after_step e) = grid_with gs (translate dr dc <$> cells').
Proof.
  intros Hev Hr0 Hr1 Hc0 Hc1 He.
  apply evolves_to_sound in Hev as (Hin & Hin' & Hrule).
  assert (forall l, Forall (fun q => in_box r0 r1 c0 c1 q = true) l ->
                    Forall (fun p => contains gs p = true) (translate dr dc <$> l))
    as Hb.
  { intros l Hl. apply Forall_fmap. eapply Forall_impl; [exact Hl |].
    intros q Hq. apply in_box_spec in Hq. apply contains_spec. cbn. lia. }
  rewrite (after_step_grid_only
             (mkGameEngine (grid_with gs (translate dr dc <$> cells))
                           (generation e) (config e)) e) by done.
  apply after_step_grid_with; [by apply Hb | by apply Hb |].
  intros p. pose proof (Hrule (translate (- dr) (- dc) p)) as H.
  rewrite <- (lives_next_translate dr dc), translate_back in H.
  unfold lives_next in H. rewrite H. f_equal.
  apply bool_decide_ext.
  rewrite <- (translate_back dr dc p) at 2.
  symmetry. apply (list_elem_of_fmap_inj _).
Qed.

Lemma block_evolves : evolves_to block block 0 1 0 1 = true.
Proof. vm_compute. reflexivity. Qed.

Lemma beehive_evolves : evolves_to beehive beehive 0 2 0 3 = true.
Proof. vm_compute. reflexivity. Qed.

Lemma glider_evolves :
  evolves_to glider glider_1 0 3 0 3 = true
  /\ evolves_to glider_1 glider_2 0 3 0 3 = true
  /\ evolves_to glider_2 glider_3 0 3 0 3 = true
  /\ evolves_to glider_3 (translate 1 1 <$> glider) 0 3 0 3 = true.
Proof. repeat split; vm_compute; reflexivity. Qed.

Lemma steps_add (a b : nat) (e : GameEngine) :
  steps (a + b) e = steps a (steps b e).
Proof. unfold steps. apply Nat.iter_add. Qed.

Lemma translate_translate (dr dc dr' dc' : Z) (l : list Position) :
  translate dr dc <$> (translate dr' dc' <$> l)
  = translate (dr' + dr) (dc' + dc) <$> l.
Proof.
  rewrite <- list_fmap_compose. apply list_fmap_ext. intros _ p _.
  apply Position_eq. cbn. lia.
Qed.

Lemma still_life (gs : GridSize) (cells : list Position) (r0 r1 c0 c1 dr dc : Z)
    (e : GameEngine) (n : nat) :
  evolves_to cells cells r0 r1 c0 c1 = true ->
  0 <= r0 + dr -> r1 + dr < height gs -> 0 <= c0 + dc -> c1 + dc < width gs ->
  grid e = grid_with gs (translate dr dc <$> cells) ->
  grid (steps n e) = grid e.
Proof.
  intros Hev Hr0 Hr1 Hc0 Hc1 He. induction n as [|n IH]; [done |].
  rewrite steps_S, He.
  apply (pattern_step gs cells cells r0 r1 c0 c1 dr dc); try done.
  by rewrite IH.
Qed.

Lemma living_cells_pattern (gs : GridSize) (cells : list Position)
    (r0 r1 c0 c1 dr dc : Z) :
  Forall (fun q => in_box r0 r1 c0 c1 q = true) cells ->
  0 <= r0 + dr -> r1 + dr < height gs -> 0 <= c0 + dc -> c1 + dc < width gs ->
  living_cells (grid_with gs (translate dr dc <$> cells))
  = list_to_set (translate dr dc <$> cells).
Proof.
  intros Hin Hr0 Hr1 Hc0 Hc1. apply grid_with_living_cells, Forall_fmap.
  eapply Forall_impl; [exact Hin |].
  intros q Hq. apply in_box_spec in Hq. apply contains_spec. cbn. lia.
Qed.

(** X9: a 2 x 2 block of living cells anywhere in the grid, the border
    included, is unchanged by any number of steps. *)
Theorem block_remains_stable (gs : GridSize) (r c : Z) (e : GameEngine) (n : nat) :
  0 <= r -> r + 1 < height gs -> 0 <= c -> c + 1 < width gs ->
  grid e = grid_with gs (translate r c <$> block) ->
  grid (steps n e) = grid e
  /\ living_cells (grid (steps n e)) = list_to_set (translate r c <$> block).
Proof.
  intros Hr0 Hr1 Hc0 Hc1 He.
  assert (grid (steps n e) = grid e) as H
    by (apply (still_life gs block 0 1 0 1 r c); [apply block_evolves | lia ..| done]).
  split; [exact H |]. rewrite H, He.
  apply (living_cells_pattern gs block 0 1 0 1); [| lia ..].
  by destruct (evolves_to_sound _ _ _ _ _ _ block_evolves).
Qed.

Lemma block_remains_stable_witness :
  grid (steps 3 (GameEngine_init
                   (grid_with (mkGridSize 4 4) (translate 0 2 <$> block))
                   example_config))
  = grid_with (mkGridSize 4 4) (translate 0 2 <$> block).
Proof.
  apply (proj1 (block_remains_stable (mkGridSize 4 4) 0 2
                  (GameEngine_init
                     (grid_with (mkGridSize 4 4) (translate 0 2 <$> block))
                     example_config) 3%nat
                  ltac:(lia) ltac:(cbn; lia) ltac:(lia) ltac:(cbn; lia)
                  ltac:(reflexivity))).
Defined.

(** X10: a beehive (six cells in a 3 x 4 rectangle) anywhere in the grid is
    unchanged by any number of steps. *)
Theorem beehive_remains_stable (gs : GridSize) (r c : Z) (e : GameEngine) (n : nat) :
  0 <= r -> r + 2 < height gs -> 0 <= c -> c + 3 < width gs ->
  grid e = grid_with gs (translate r c <$> beehive) ->
  grid (steps n e) = grid e
  /\ living_cells (grid (steps n e)) = list_to_set (translate r c <$> beehive).
Proof.
  intros Hr0 Hr1 Hc0 Hc1 He.
  assert (grid (steps n e) = grid e) as H
    by (apply (still_life gs beehive 0 2 0 3 r c); [apply beehive_evolves | lia ..| done]).
  split; [exact H |]. rewrite H, He.
  apply (living_cells_pattern gs beehive 0 2 0 3); [| lia ..].
  by destruct (evolves_to_sound _ _ _ _ _ _ beehive_evolves).
Qed.

Lemma beehive_remains_stable_witness :
  grid (steps 2 (GameEngine_init
                   (grid_with (mkGridSize 6 5) (translate 1 1 <$> beehive))
                   example_config))
  = grid_with (mkGridSize 6 5) (translate 1 1 <$> beehive).
Proof.
  apply (proj1 (beehive_remains_stable (mkGridSize 6 5) 1 1
                  (GameEngine_init
                     (grid_with (mkGridSize 6 5) (translate 1 1 <$> beehive))
                     example_config) 2%nat
                  ltac:(lia) ltac:(cbn; lia) ltac:(lia) ltac:(cbn; lia)
                  ltac:(reflexivity))).
Defined.

Lemma glider_four_steps (gs : GridSize) (r c : Z) (e : GameEngine) :
  0 <= r -> r + 3 < height gs -> 0 <= c -> c + 3 < width gs ->
  grid e = grid_with gs (translate r c <$> glider) ->
  grid (steps 4 e) = grid_with gs (translate (r + 1) (c + 1) <$> glider).
Proof.
  intros Hr0 Hr1 Hc0 Hc1 He.
  destruct glider_evolves as (H1 & H2 & H3 & H4).
  replace (r + 1) with (1 + r) by lia. replace (c + 1) with (1 + c) by lia.
  rewrite <- (translate_translate r c 1 1).
  change (steps 4 e)
    with (after_step (after_step (after_step (after_step e)))).
  apply (pattern_step gs glider_3 _ 0 3 0 3 r c); [exact H4 | lia .. |].
  apply (pattern_step gs glider_2 _ 0 3 0 3 r c); [exact H3 | lia .. |].
  apply (pattern_step gs glider_1 _ 0 3 0 3 r c); [exact H2 | lia .. |].
  apply (pattern_step gs glider _ 0 3 0 3 r c); [exact H1 | lia .. |].
  exact He.
Qed.

(** X11: a glider moves one cell down and one cell right every four steps,
    for as long as the 4 x 4 square it moves in lies in the grid. *)
Theorem glider_moves_diagonally (gs : GridSize) (r c : Z) (e : GameEngine) (k : nat) :
  0 <= r -> 0 <= c ->
  r + Z.of_nat k + 2 < height gs -> c + Z.of_nat k + 2 < width gs ->
  grid e = grid_with gs (translate r c <$> glider) ->
  grid (steps (4 * k) e)
  = grid_with gs (translate (r + Z.of_nat k) (c + Z.of_nat k) <$> glider).
Proof.
  intros Hr Hc. induction k as [|k IH]; intros Hh Hw He.
  - cbn [Nat.mul steps Nat.iter]. by rewrite !Z.add_0_r.
  - replace (4 * S k)%nat with (4 + 4 * k)%nat by lia. rewrite steps_add.
    replace (r + Z.of_nat (S k)) with (r + Z.of_nat k + 1) by lia.
    replace (c + Z.of_nat (S k)) with (c + Z.of_nat k + 1) by lia.
    apply glider_four_steps; [lia .. |]. apply IH; [lia | lia | done].
Qed.

Lemma glider_moves_diagonally_witness :
  grid (steps (4 * 2) (GameEngine_init
                         (grid_with (mkGridSize 6 6) (translate 0 1 <$> glider))
                         example_config))
  = grid_with (mkGridSize 6 6)
              (translate (0 + Z.of_nat 2) (1 + Z.of_nat 2) <$> glider).
Proof.
  apply (glider_moves_diagonally (mkGridSize 6 6) 0 1
           (GameEngine_init (grid_with (mkGridSize 6 6) (translate 0 1 <$> glider))
                            example_config) 2%nat);
    [lia | lia | cbn; lia | cbn; lia | reflexivity].
Defined.

(** *** The full grid *)

Lemma contains_false (gs : GridSize) (q : Position) :
  row q < 0 \/ height gs <= row q \/ col q < 0 \/ width gs <= col q ->
  contains gs q = false.
Proof.
  intros H. destruct (contains gs q) eqn:E; [| done].
  apply contains_spec in E. lia.
Qed.

Lemma bool_decide_all_positions (gs : GridSize) (n : Position) :
  bool_decide (n ∈ all_positions gs) = contains gs n.
Proof.
  destruct (contains gs n) eqn:E.
  - by apply bool_decide_eq_true, elem_of_all_positions.
  - apply bool_decide_eq_false. rewrite elem_of_all_positions. congruence.
Qed.

Lemma in_corners (gs : GridSize) (p : Position) :
  p ∈ corners gs <->
  (row p = 0 \/ row p = height gs - 1) /\ (col p = 0 \/ col p = width gs - 1).
Proof.
  unfold corners. rewrite !elem_of_cons, elem_of_nil, !Position_eq.
  cbn [row col]. lia.
Qed.

Lemma corners_in_bounds (gs : GridSize) :
  0 < width gs -> 0 < height gs ->
  Forall (fun p => contains gs p = true) (corners gs).
Proof.
  intros Hw Hh. unfold corners.
  repeat (apply Forall_cons; split; [apply contains_spec; cbn; lia |]).
  apply Forall_nil_2.
Qed.

(** A step from a seeded grid, where the rule need only be checked at the
    positions of the grid. *)
Lemma after_step_grid_with_in_bounds (gs : GridSize) (cells cells' : list Position)
    (e : GameEngine) :
  Forall (fun p => contains gs p = true) cells ->
  Forall (fun p => contains gs p = true) cells' ->
  (forall p, contains gs p = true ->
             lives_next cells p = mkCell (bool_decide (p ∈ cells'))) ->
  grid e = grid_with gs cells ->
  grid (after_step e) = grid_with gs cells'.
Proof.
  intros H H' Hrule He. apply Grid_eq.
  - pose proof (after_step_size e) as Hs.
    pose proof (grid_with_size gs cells H) as H1.
    pose proof (grid_with_size gs cells' H') as H2.
    unfold size in *. rewrite He in Hs. congruence.
  - intros p. rewrite after_step_lookup, grid_with_lookup, He by done.
    rewrite grid_with_size by done.
    destruct (contains gs p) eqn:E; [| done]. f_equal.
    unfold next_cell. rewrite grid_with_get_cell by done.
    rewrite count_as_contributions, <- (Hrule p E). unfold lives_next. f_equal.
    induction (neighbors p) as [|n l IH]; [reflexivity |].
    cbn [foldr]. by rewrite IH, grid_with_contribution.
Qed.

Ltac decide_contains gs :=
  repeat match goal with
  | |- context [contains gs ?q] =>
      first [ rewrite (proj2 (contains_spec gs q)) by (cbn [row col]; lia)
            | rewrite (contains_false gs q) by (cbn [row col]; lia) ]
  end.

Ltac decide_corner gs :=
  repeat match goal with
  | |- context [bool_decide (?q ∈ corners gs)] =>
      first [ rewrite (bool_decide_eq_true_2 (q ∈ corners gs))
                by (apply in_corners; cbn [row col]; lia)
            | rewrite (bool_decide_eq_false_2 (q ∈ corners gs))
                by (rewrite in_corners; cbn [row col]; lia) ]
  end.

Lemma full_grid_rule (gs : GridSize) (p : Position) :
  2 <= width gs -> 2 <= height gs -> contains gs p = true ->
  lives_next (all_positions gs) p = mkCell (bool_decide (p ∈ corners gs)).
Proof.
  intros Hw Hh Hp. apply contains_spec in Hp.
  unfold lives_next. rewrite neighbors_unfold. cbn [foldr].
  rewrite !bool_decide_all_positions.
  assert (row p = 0 \/ 0 < row p < height gs - 1 \/ row p = height gs - 1)
    as [?|[?|?]] by lia;
  assert (col p = 0 \/ 0 < col p < width gs - 1 \/ col p = width gs - 1)
    as [?|[?|?]] by lia;
  decide_contains gs; decide_corner gs; reflexivity.
Qed.

Lemma corners_rule (gs : GridSize) (p : Position) :
  3 <= width gs -> 3 <= height gs -> contains gs p = true ->
  lives_next (corners gs) p = mkCell (bool_decide (p ∈ [])).
Proof.
  intros Hw Hh Hp. apply contains_spec in Hp.
  unfold lives_next. rewrite neighbors_unfold. cbn [foldr].
  assert ((height gs = 3 /\ (row p = 0 \/ row p = 1 \/ row p = 2))
          \/ (3 < height gs
              /\ (row p = 0 \/ row p = 1 \/ 1 < row p < height gs - 2
                  \/ row p = height gs - 2 \/ row p = height gs - 1)))
    as [[? [?|[?|?]]] | [? [?|[?|[?|[?|?]]]]]] by lia;
  assert ((width gs = 3 /\ (col p = 0 \/ col p = 1 \/ col p = 2))
          \/ (3 < width gs
              /\ (col p = 0 \/ col p = 1 \/ 1 < col p < width gs - 2
                  \/ col p = width gs - 2 \/ col p = width gs - 1)))
    as [[? [?|[?|?]]] | [? [?|[?|[?|[?|?]]]]]] by lia;
  decide_corner gs; reflexivity.
Qed.

Lemma grid_with_nil (gs : GridSize) : grid_with gs [] = Grid_init gs.
Proof. reflexivity. Qed.

(** X12: a grid with every cell alive does not die out in one step: with at
    least two rows and two columns, the step leaves exactly the four
    corners alive (each has three living neighbours; every other cell has
    five or eight).  With at least three rows and three columns the
    corners are apart and the step after leaves no cell alive. *)
Theorem full_grid_leaves_corners (gs : GridSize) (e : GameEngine) :
  2 <= width gs -> 2 <= height gs ->
  grid e = grid_with gs (all_positions gs) ->
  (forall p, contains gs p = true -> get_cell (grid e) p = alive_cell)
  /\ grid (after_step e) = grid_with gs (corners gs)
  /\ living_cells (grid (after_step e)) = list_to_set (corners gs)
  /\ (3 <= width gs -> 3 <= height gs ->
      grid (steps 2 e) = Grid_init gs /\ living_cells (grid (steps 2 e)) = ∅).
Proof.
  intros Hw Hh He.
  pose proof (Forall_all_positions gs) as Hall.
  pose proof (corners_in_bounds gs ltac:(lia) ltac:(lia)) as Hcor.
  assert (grid (after_step e) = grid_with gs (corners gs)) as H1.
  { apply (after_step_grid_with_in_bounds gs (all_positions gs)); try done.
    intros p Hp. by apply full_grid_rule. }
  split; [| split; [exact H1 | split]].
  - intros p Hp. rewrite He, grid_with_get_cell by done.
    by rewrite bool_decide_all_positions, Hp.
  - rewrite H1. by apply grid_with_living_cells.
  - intros Hw3 Hh3.
    assert (grid (steps 2 e) = Grid_init gs) as H2.
    { change (steps 2 e) with (after_step (after_step e)).
      rewrite <- grid_with_nil.
      apply (after_step_grid_with_in_bounds gs (corners gs)); try done.
      intros p Hp. by apply corners_rule. }
    split; [exact H2 |]. rewrite H2. apply Grid_init_living_cells.
Qed.

Lemma full_grid_leaves_corners_witness :
  grid (after_step (GameEngine_init
                      (grid_with (mkGridSize 4 3) (all_positions (mkGridSize 4 3)))
                      example_config))
  = grid_with (mkGridSize 4 3) (corners (mkGridSize 4 3)).
Proof.
  apply (full_grid_leaves_corners (mkGridSize 4 3)
           (GameEngine_init
              (grid_with (mkGridSize 4 3) (all_positions (mkGridSize 4 3)))
              example_config));
    [cbn; lia | cbn; lia | reflexivity].
Defined.

Lemma full_grid_count (gs : GridSize) (p : Position) :
  count_living_neighbors (grid_with gs (all_positions gs)) p
  = foldr (fun n acc => (if contains gs n then 1 else 0) + acc) 0 (neighbors p).
Proof.
  rewrite count_as_contributions.
  induction (neighbors p) as [|n l IH]; [reflexivity |].
  cbn [foldr]. rewrite IH, grid_with_contribution by apply Forall_all_positions.
  by rewrite bool_decide_all_positions.
Qed.

(** X13: the bounds of 3, 5 and 8 are reached: in a grid of at least two
    rows and two columns with every cell alive, a corner counts exactly 3
    living neighbours, a position on an edge that is not a corner exactly
    5, and an interior position exactly 8; in any full grid the count is
    the number of neighbours inside the bounds. *)
Theorem full_grid_counts_three_five_eight (gs : GridSize) (p : Position) :
  2 <= width gs -> 2 <= height gs ->
  let g := grid_with gs (all_positions gs) in
  count_living_neighbors g p = Z.of_nat (length (in_bounds_neighbors gs p))
  /\ (is_corner gs p = true -> count_living_neighbors g p = 3)
  /\ (is_edge gs p = true -> count_living_neighbors g p = 5)
  /\ (is_interior gs p = true -> count_living_neighbors g p = 8).
Proof.
  intros Hw Hh g. subst g. split.
  - rewrite full_grid_count. unfold in_bounds_neighbors.
    induction (neighbors p) as [|n l IH]; [reflexivity |].
    rewrite filter_cons. cbn [foldr]. rewrite IH.
    destruct (contains gs n); case_decide; try done; cbn [length]; lia.
  - unfold is_corner, is_edge, is_interior, on_row_border, on_col_border.
    rewrite full_grid_count, neighbors_unfold. cbn [foldr].
    split; [| split]; intros H;
      destruct (contains gs p) eqn:Hp; try discriminate;
      apply contains_spec in Hp;
      destruct (Z.eqb_spec (row p) 0), (Z.eqb_spec (row p) (height gs - 1)),
               (Z.eqb_spec (col p) 0), (Z.eqb_spec (col p) (width gs - 1));
      cbn in H; try discriminate; try lia;
      decide_contains gs; reflexivity.
Qed.

Lemma full_grid_counts_three_five_eight_witness :
  count_living_neighbors
    (grid_with (mkGridSize 3 3) (all_positions (mkGridSize 3 3))) (mkPosition 0 1) = 5.
Proof.
  apply (full_grid_counts_three_five_eight (mkGridSize 3 3) (mkPosition 0 1));
    [cbn; lia | cbn; lia | reflexivity].
Defined.

(** ** The neighbour count before and after the refactoring *)

Lemma mirrors_spec (g : Grid) (game : Original.GameOfLife) :
  mirrors g game = true ->
  size g = mkGridSize (Original.GRID_SIZE game) (Original.GRID_SIZE game)
  /\ forall p, contains (size g) p = true ->
       Original.index (Original.grid game) (row p)
         ≫= (fun cells => Original.index cells (col p))
       = Some (is_alive (get_cell g p)).
Proof.
  unfold mirrors. rewrite andb_true_iff, forallb_forall.
  intros [Hs Hc]. apply bool_decide_eq_true in Hs. split; [done |].
  intros p Hp. apply elem_of_all_positions, list_elem_of_In, Hc in Hp.
  by apply bool_decide_eq_true in Hp.
Qed.

Lemma original_visit (g : Grid) (game : Original.GameOfLife) (nr nc count : Z) :
  mirrors g game = true ->
  (if (0 <=? nr) && (nr <? Original.GRID_SIZE game)
      && ((0 <=? nc) && (nc <? Original.GRID_SIZE game))
   then
     cells ← Original.index (Original.grid game) nr;
     cell ← Original.index cells nc;
     Some (if cell : bool then count + 1 else count)
   else Some count)
  = Some (count + contribution g (mkPosition nr nc)).
Proof.
  intros Hm. apply mirrors_spec in Hm as [Hs Hc].
  unfold contribution. specialize (Hc (mkPosition nr nc)). rewrite Hs in Hc |- *.
  change ((0 <=? nr) && (nr <? Original.GRID_SIZE game)
          && ((0 <=? nc) && (nc <? Original.GRID_SIZE game)))
    with (contains (mkGridSize (Original.GRID_SIZE game) (Original.GRID_SIZE game))
                   (mkPosition nr nc)).
  destruct (contains _ (mkPosition nr nc)); [| f_equal; cbn; lia].
  specialize (Hc eq_refl). cbn [row col] in Hc.
  destruct (Original.index (Original.grid game) nr) as [cells|]; [| done].
  cbn in Hc |- *. rewrite Hc. cbn.
  destruct (is_alive (get_cell g (mkPosition nr nc))); f_equal; lia.
Qed.

(** X14: the neighbour count of the original game, two nested loops over
    the offsets with the bounds check inline, returns what
    [Grid.count_living_neighbors] returns on a grid object holding the same
    cells, and so what the refactored [_count_neighbors] returns, and does
    not raise [IndexError]: the refactoring did not change the count, at
    any row and column, inside the grid or not. *)
Theorem original_count_neighbors_preserved
    (g : Grid) (game : Original.GameOfLife) (r c : Z)
    (gen : Generation) (cfg : GameConfig) :
  mirrors g game = true ->
  Original._count_neighbors game r c
  = Some (count_living_neighbors g (mkPosition r c))
  /\ Original._count_neighbors game r c
     = Some (Facade._count_neighbors (Facade.mkGameOfLife g gen cfg) r c).
Proof.
  intros Hm. unfold Facade._count_neighbors. cbn [Facade._grid].
  enough (Original._count_neighbors game r c
          = Some (count_living_neighbors g (mkPosition r c))) as H by (by split).
  rewrite count_as_contributions, neighbors_unfold.
  unfold Original._count_neighbors. cbn [Original.for_count foldr row col].
  change ((-1 =? 0) && (-1 =? 0)) with false.
  change ((-1 =? 0) && (0 =? 0)) with false.
  change ((-1 =? 0) && (1 =? 0)) with false.
  change ((0 =? 0) && (-1 =? 0)) with false.
  change ((0 =? 0) && (0 =? 0)) with true.
  change ((0 =? 0) && (1 =? 0)) with false.
  change ((1 =? 0) && (-1 =? 0)) with false.
  change ((1 =? 0) && (0 =? 0)) with false.
  change ((1 =? 0) && (1 =? 0)) with false.
  cbv iota zeta.
  repeat (rewrite (original_visit g game _ _ _ Hm);
          cbn [mbind option_bind]).
  f_equal. lia.
Qed.

Lemma original_count_neighbors_preserved_witness :
  mirrors example_grid example_game = true
  /\ Original._count_neighbors example_game 1 1
     = Some (count_living_neighbors example_grid (mkPosition 1 1)).
Proof.
  split; [reflexivity |].
  apply (original_count_neighbors_preserved example_grid example_game 1 1
           (mkGeneration 0) example_config).
  reflexivity.
Defined.

(** ** main.create_random_grid *)

Lemma runM_on_snd {S T A} (m : M T A) (s : S) (t : T) :
  runM (on_snd m) (s, t) = ((runM m t).1, (s, (runM m t).2)).
Proof. unfold on_snd. cbn. by destruct (runM m t). Qed.

Lemma fill_loop (d : float) (ps : list Position) :
  NoDup ps ->
  forall (f : nat -> float) (k : nat) (g0 : Grid),
    Forall (fun p => contains (_size g0) p = true) ps ->
    exists g,
      runM (for_each ps (fun position =>
              x ← on_fst random_random;
              if PrimFloat.ltb x d
              then on_snd (set_cell position alive_cell)
              else mret tt))
           (mkRng f k, g0)
      = (Returned tt, (mkRng f (k + length ps), g))
      /\ _size g = _size g0
      /\ (forall p, p ∉ ps -> _cells g !! p = _cells g0 !! p)
      /\ (forall i p, ps !! i = Some p ->
            _cells g !! p = if PrimFloat.ltb (f (k + i)%nat) d
                            then Some alive_cell else _cells g0 !! p).
Proof.
  induction 1 as [|p ps Hp Hnd IH]; intros f k g0 Hin.
  - exists g0. cbn. rewrite Nat.add_0_r.
    split; [done | split; [done | split; [done |]]].
    intros i p Hi. by rewrite lookup_nil in Hi.
  - apply Forall_cons in Hin as [Hp0 Hin].
    rewrite for_each_cons, !runM_bind.
    cbn [on_fst random_random runM fst snd draws drawn].
    destruct (PrimFloat.ltb (f k) d) eqn:E.
    + destruct (IH f (S k) (store_cell p alive_cell g0) Hin)
        as (g & Hrun & Hs & Hout & Hidx).
      exists g. rewrite runM_on_snd, (set_cell_in g0 p alive_cell Hp0).
      cbn [fst snd]. rewrite Hrun. cbn [length].
      split; [do 3 f_equal; lia |]. split; [done |]. split.
      * intros q Hq. apply not_elem_of_cons in Hq as [Hne Hq]. rewrite (Hout q Hq).
        unfold store_cell. cbn [_cells]. by rewrite lookup_insert_ne.
      * intros [|i] q Hi.
        -- injection Hi as <-. rewrite Nat.add_0_r, E, (Hout p Hp).
           unfold store_cell. cbn [_cells]. by rewrite lookup_insert_eq.
        -- cbn in Hi. rewrite (Hidx i q Hi).
           replace (S k + i)%nat with (k + S i)%nat by lia.
           destruct (PrimFloat.ltb (f (k + S i)%nat) d); [done |].
           unfold store_cell. cbn [_cells]. rewrite lookup_insert_ne; [done |].
           intros ->. apply Hp. by eapply list_elem_of_lookup_2.
    + destruct (IH f (S k) g0 Hin) as (g & Hrun & Hs & Hout & Hidx).
      exists g. cbn [runM mret M_ret]. rewrite Hrun. cbn [length].
      split; [do 3 f_equal; lia |]. split; [done |]. split.
      * intros q Hq. apply not_elem_of_cons in Hq as [Hne Hq]. by rewrite (Hout q Hq).
      * intros [|i] q Hi.
        -- injection Hi as <-. by rewrite Nat.add_0_r, E, (Hout p Hp).
        -- cbn in Hi. rewrite (Hidx i q Hi).
           by replace (S k + i)%nat with (k + S i)%nat by lia.
Qed.

(** X15: seeding a random grid never raises; it makes a square grid of
    [grid_size] rows and columns with a cell stored for each of its
    positions, draws exactly one random number for each position, in
    row-major order, and the cell of a position is alive exactly when the
    number drawn for it is below the configured density. *)
Theorem create_random_grid_draws_per_cell (config : GameConfig) (rng : Rng) :
  let gs := mkGridSize (grid_size config) (grid_size config) in
  exists g,
    runM (create_random_grid config) rng
    = (Returned g, mkRng (draws rng) (drawn rng + length (all_positions gs)))
    /\ size g = gs
    /\ well_formed g
    /\ (forall i p, all_positions gs !! i = Some p ->
          get_cell g p
          = mkCell (PrimFloat.ltb (draws rng (drawn rng + i)%nat)
                                  (initial_density config))).
Proof.
  intros gs. destruct rng as [f k].
  destruct (fill_loop (initial_density config) (all_positions gs)
              (NoDup_all_positions gs) f k (Grid_init gs)
              ltac:(rewrite Grid_init_size; apply Forall_all_positions))
    as (g & Hrun & Hs & Hout & Hidx).
  rewrite Grid_init_size in Hs.
  exists g. unfold create_random_grid, fill_randomly. cbn [runM draws drawn].
  fold gs. rewrite Hrun. split; [done |]. split; [done |]. split.
  - intros p. unfold size. rewrite Hs.
    destruct (decide (p ∈ all_positions gs)) as [Hp | Hp].
    + apply list_elem_of_lookup in Hp as Hi. destruct Hi as [i Hi].
      rewrite (Hidx i p Hi), Grid_init_lookup.
      apply elem_of_all_positions in Hp. rewrite Hp.
      destruct (PrimFloat.ltb _ _); split; eauto.
    + rewrite (Hout p Hp), Grid_init_lookup.
      rewrite elem_of_all_positions in Hp.
      destruct (contains gs p); [done |]. split; [by intros [? ?] | done].
  - intros i p Hi. rewrite get_cell_lookup, Hs, (Hidx i p Hi), Grid_init_lookup.
    apply list_elem_of_lookup_2, elem_of_all_positions in Hi. rewrite Hi.
    by destruct (PrimFloat.ltb _ _).
Qed.

Lemma create_random_grid_draws_per_cell_witness :
  exists g,
    (runM (create_random_grid example_config)
          (mkRng (fun n => if Nat.even n then 0.125%float else 0.5%float) 0)).1
    = Returned g
    /\ get_cell g (mkPosition 0 2)
       = mkCell (PrimFloat.ltb 0.125%float (initial_density example_config)).
Proof.
  destruct (create_random_grid_draws_per_cell example_config
              (mkRng (fun n => if Nat.even n then 0.125%float else 0.5%float) 0))
    as (g & Hrun & _ & _ & Hidx).
  exists g. split; [by rewrite Hrun |].
  apply (Hidx 2%nat (mkPosition 0 2)). reflexivity.
Defined.

(** ** ConsoleDisplay._render_grid *)

Lemma string_app_assoc (a b c : string) : (a +:+ b) +:+ c = a +:+ b +:+ c.
Proof.
  induction a as [|x a IH]; [done |].
  change (String x ((a +:+ b) +:+ c) = String x (a +:+ b +:+ c)). by rewrite IH.
Qed.

Lemma string_app_nil_r (a : string) : a +:+ "" = a.
Proof.
  induction a as [|x a IH]; [done |].
  change (String x (a +:+ "") = String x a). by rewrite IH.
Qed.

Lemma concat_strings_app (l1 l2 : list string) :
  concat_strings (l1 ++ l2) = concat_strings l1 +:+ concat_strings l2.
Proof.
  induction l1 as [|x l1 IH]; [done |].
  cbn. unfold concat_strings in IH. by rewrite IH, string_app_assoc.
Qed.

Lemma for_each_writes {A} (text : A -> string) (body : A -> M string unit)
    (xs : list A) (out : string) :
  (forall x o, runM (body x) o = (Returned tt, o +:+ text x)) ->
  runM (for_each xs body) out = (Returned tt, out +:+ concat_strings (text <$> xs)).
Proof.
  intros Hb. revert out. induction xs as [|x xs IH]; intros out.
  - cbn. by rewrite string_app_nil_r.
  - rewrite for_each_cons, runM_bind, Hb, IH, fmap_cons. cbn.
    by rewrite string_app_assoc.
Qed.

(** What the loop body writes for one position. *)
Lemma render_position (config : GameConfig) (g : Grid) (p : Position) (out : string) :
  runM ((if col p =? 0 then print "║" "" else mret tt);;
        print (str_mul (if is_alive (get_cell g p)
                        then alive_char config else dead_char config) 2) "";;
        if col p =? width (size g) - 1 then print "║" newline else mret tt) out
  = (Returned tt,
     out +:+ ((if col p =? 0 then "║" else "")
              +:+ cell_chars config g (row p) (col p)
              +:+ (if col p =? width (size g) - 1 then "║" +:+ newline else ""))).
Proof.
  unfold cell_chars. destruct p as [r c]. cbn [row col].
  destruct (c =? 0), (c =? width (size g) - 1); cbn;
    rewrite ?string_app_nil_r, ?string_app_assoc; reflexivity.
Qed.

Lemma row_segment_text (config : GameConfig) (g : Grid) (r : Z) (a m : nat) :
  Z.of_nat (a + S m) = width (size g) ->
  concat_strings
    ((fun p => (if col p =? 0 then "║" else "")
               +:+ cell_chars config g (row p) (col p)
               +:+ (if col p =? width (size g) - 1 then "║" +:+ newline else ""))
       <$> (mkPosition r <$> (Z.of_nat <$> seq a (S m))))
  = (if a is O then "║" else "")
    +:+ concat_strings (cell_chars config g r <$> (Z.of_nat <$> seq a (S m)))
    +:+ "║" +:+ newline.
Proof.
  revert a. induction m as [|m IH]; intros a Ha.
  - cbn [seq fmap list_fmap concat_strings foldr row col].
    rewrite (proj2 (Z.eqb_eq (Z.of_nat a) (width (size g) - 1))) by lia.
    rewrite !string_app_nil_r. destruct a; cbn; by rewrite ?string_app_assoc.
  - change (seq a (S (S m))) with (a :: seq (S a) (S m)).
    rewrite !fmap_cons. cbn [concat_strings foldr row col].
    fold (concat_strings
            ((fun p => (if col p =? 0 then "║" else "")
                       +:+ cell_chars config g (row p) (col p)
                       +:+ (if col p =? width (size g) - 1 then "║" +:+ newline else ""))
               <$> (mkPosition r <$> (Z.of_nat <$> seq (S a) (S m))))).
    fold (concat_strings (cell_chars config g r <$> (Z.of_nat <$> seq (S a) (S m)))).
    rewrite (IH (S a)) by lia.
    rewrite (proj2 (Z.eqb_neq (Z.of_nat a) (width (size g) - 1))) by lia.
    rewrite string_app_nil_r. destruct a; cbn; by rewrite ?string_app_assoc.
Qed.

Lemma row_positions_text (config : GameConfig) (g : Grid) (r : Z) :
  0 < width (size g) ->
  concat_strings
    ((fun p => (if col p =? 0 then "║" else "")
               +:+ cell_chars config g (row p) (col p)
               +:+ (if col p =? width (size g) - 1 then "║" +:+ newline else ""))
       <$> (mkPosition r <$> range (width (size g))))
  = row_text config g r.
Proof.
  intros Hw. unfold row_text, range.
  destruct (Z.to_nat (width (size g))) as [|m] eqn:E; [lia |].
  rewrite (row_segment_text config g r 0 m) by lia. reflexivity.
Qed.

(** X16: rendering the grid never raises and appends to the output one
    line for each row, from the first to the last: a border, two
    characters for each cell of the row from left to right (the alive or
    the dead character of the configuration), a border and a line end.
    A grid without positions renders as nothing. *)
Theorem render_grid_row_by_row (config : GameConfig) (g : Grid) (out : string) :
  (0 < width (size g) ->
   runM (_render_grid config g) out = (Returned tt, out +:+ grid_text config g))
  /\ (width (size g) <= 0 \/ height (size g) <= 0 ->
      runM (_render_grid config g) out = (Returned tt, out)).
Proof.
  split.
  - intros Hw. unfold _render_grid.
    rewrite (for_each_writes _ _ _ _ (render_position config g)). f_equal. f_equal.
    rewrite all_positions_rows. unfold grid_text.
    induction (range (height (size g))) as [|r l IH]; [done |].
    rewrite bind_cons, fmap_app, concat_strings_app, IH, fmap_cons.
    by rewrite row_positions_text.
  - intros H. unfold _render_grid. by rewrite all_positions_degenerate.
Qed.

Lemma render_grid_row_by_row_witness :
  runM (_render_grid example_config (grid example_engine)) ""
  = (Returned tt, "" +:+ grid_text example_config (grid example_engine)).
Proof.
  apply (proj1 (render_grid_row_by_row example_config (grid example_engine) "")).
  vm_compute. reflexivity.
Defined.

(** ** GameOfLife.run *)

Lemma facade_run_interrupted (fuel k : nat) (self : Facade.GameOfLife)
    (cs : list ExternalCall) :
  (k / 2 < fuel)%nat ->
  runM (Facade.run fuel) (Facade.mkGameWorld self cs (Some k))
  = (Returned tt,
     Facade.mkGameWorld
       (Facade.mkGameOfLife (grid (steps (k / 2) (engine_of self)))
                            (generation (steps (k / 2) (engine_of self)))
                            (Facade.config self))
       (cs ++ take (S k) (loop_calls (S (k / 2)) (engine_of self))
           ++ [ShowExitMessage (generation (steps (k / 2) (engine_of self)))])
       None).
Proof.
  intros Hk. unfold Facade.run. cbn [runM Facade.game Facade.game_calls
                                     Facade.game_ctrl_c GameEngine_init grid config].
  fold (engine_of self). by rewrite run_interrupted.
Qed.

(** X17: a run of the old class starts the engine at the generation the
    game has reached, and when the run is interrupted the game takes back
    the engine's grid and generation: interrupted during the loop's call
    number [k] the game is [k / 2] steps further, and a second run
    continues from there, so that the steps and the generation numbers of
    successive runs add up. *)
Theorem facade_run_resumes (fuel fuel' k k' : nat) (self : Facade.GameOfLife)
    (cs : list ExternalCall) :
  (k / 2 < fuel)%nat -> (k' / 2 < fuel')%nat ->
  let w1 := (runM (Facade.run fuel) (Facade.mkGameWorld self cs (Some k))).2 in
  let w2 := (runM (Facade.run fuel')
                  (Facade.mkGameWorld (Facade.game w1) (Facade.game_calls w1)
                                      (Some k'))).2 in
  engine_of (Facade.game w1) = steps (k / 2) (engine_of self)
  /\ engine_of (Facade.game w2) = steps (k / 2 + k' / 2) (engine_of self)
  /\ number (Facade._generation (Facade.game w2))
     = number (Facade._generation self) + Z.of_nat (k / 2) + Z.of_nat (k' / 2)
  /\ (runM (Facade.run fuel')
           (Facade.mkGameWorld (Facade.game w1) (Facade.game_calls w1) (Some k'))).1
     = Returned tt.
Proof.
  intros Hk Hk' w1 w2.
  assert (forall s j, (j / 2 < fuel + fuel')%nat ->
            engine_of
              (Facade.mkGameOfLife (grid (steps (j / 2) (engine_of s)))
                                   (generation (steps (j / 2) (engine_of s)))
                                   (Facade.config s))
            = steps (j / 2) (engine_of s)) as Hback.
  { intros s j _. unfold engine_of at 1.
    cbn [Facade._grid Facade._generation Facade.config].
    change (Facade.config s) with (config (engine_of s)).
    rewrite <- (steps_config (j / 2) (engine_of s)).
    by destruct (steps (j / 2) (engine_of s)). }
  assert (engine_of (Facade.game w1) = steps (k / 2) (engine_of self)) as H1.
  { subst w1. rewrite facade_run_interrupted by done.
    cbn [snd Facade.game]. apply Hback. lia. }
  assert (engine_of (Facade.game w2) = steps (k / 2 + k' / 2) (engine_of self)) as H2.
  { subst w2. rewrite facade_run_interrupted by done.
    cbn [snd Facade.game]. rewrite Hback by lia.
    by rewrite H1, (Nat.add_comm (k / 2)), steps_add. }
  split; [exact H1 |]. split; [exact H2 |]. split.
  - change (Facade._generation (Facade.game w2))
      with (generation (engine_of (Facade.game w2))).
    rewrite H2, steps_generation. cbn. lia.
  - by rewrite facade_run_interrupted.
Qed.

Lemma facade_run_resumes_witness :
  engine_of
    (Facade.game
       (runM (Facade.run 3)
             (Facade.mkGameWorld
                (Facade.mkGameOfLife (grid example_engine) (mkGeneration 7)
                                     example_config) [] (Some 5%nat))).2)
  = steps (5 / 2)
          (engine_of (Facade.mkGameOfLife (grid example_engine) (mkGeneration 7)
                                          example_config)).
Proof.
  apply (facade_run_resumes 3 1 5 0
           (Facade.mkGameOfLife (grid example_engine) (mkGeneration 7) example_config)
           []); vm_compute; lia.
Defined.

(** ** Underpopulation *)

Lemma NoDup_neighbors (p : Position) : NoDup (neighbors p).
Proof.
  rewrite neighbors_unfold.
  repeat (apply NoDup_cons; split;
          [rewrite ?elem_of_cons, elem_of_nil, ?Position_eq; cbn; lia |]).
  apply NoDup_nil_2.
Qed.

Lemma alive_in_living_cells (g : Grid) (n : Position) :
  contains (size g) n && is_alive (get_cell g n) = true -> n ∈ living_cells g.
Proof.
  rewrite andb_true_iff. intros [Hc Ha]. apply living_cells_spec.
  rewrite get_cell_lookup in Ha. unfold size in Hc. rewrite Hc in Ha.
  destruct (_cells g !! n) as [c|]; [eauto | discriminate].
Qed.

Lemma count_le_living (g : Grid) (p : Position) :
  count_living_neighbors g p
  <= Z.of_nat (base.size (living_cells g ∖ {[p]})).
Proof.
  rewrite count_living_neighbors_length.
  set (L := filter _ (neighbors p)).
  assert (NoDup L) as Hnd by apply NoDup_filter, NoDup_neighbors.
  rewrite <- (size_list_to_set (C := gset Position) L Hnd).
  apply inj_le, subseteq_size. intros n Hn.
  apply elem_of_list_to_set, list_elem_of_filter in Hn as [Hn Hin].
  apply elem_of_difference. split; [by apply alive_in_living_cells |].
  rewrite elem_of_singleton. intros ->. by apply elem_of_neighbors in Hin as [? _].
Qed.

Lemma all_dead_living_cells (g : Grid) :
  well_formed g -> all_dead g = true -> living_cells g = ∅.
Proof.
  intros Hwf Hd. apply set_eq. intros p.
  rewrite (living_cells_well_formed g p Hwf), elem_of_empty.
  rewrite all_dead_spec in Hd. by rewrite Hd.
Qed.

(** X18: a position never counts more living neighbours than there are
    living cells other than itself; so a grid with at most two living
    cells has none after one step: a cell needs two living neighbours to
    survive and three to be born. *)
Theorem sparse_population_dies (e : GameEngine) (p : Position) :
  count_living_neighbors (grid e) p
  <= Z.of_nat (base.size (living_cells (grid e) ∖ {[p]}))
  /\ ((base.size (living_cells (grid e)) <= 2)%nat ->
      all_dead (grid (after_step e)) = true
      /\ living_cells (grid (after_step e)) = ∅).
Proof.
  split; [apply count_le_living |]. intros Hsz.
  assert (all_dead (grid (after_step e)) = true) as Hd.
  { apply all_dead_spec. intros q. rewrite after_step_get_cell.
    destruct (contains (size (grid e)) q) eqn:Hq; [| done].
    unfold next_cell, calculate_next_state.
    pose proof (count_le_living (grid e) q) as Hc.
    destruct (is_alive (get_cell (grid e) q)) eqn:Ha.
    - assert (q ∈ living_cells (grid e)) as Hin
        by (apply alive_in_living_cells; by rewrite Hq, Ha).
      assert (base.size (living_cells (grid e) ∖ {[q]})
              = base.size (living_cells (grid e)) - 1)%nat as Hs.
      { rewrite size_difference by (by apply singleton_subseteq_l).
        by rewrite size_singleton. }
      destruct (py_in (count_living_neighbors (grid e) q) [2; 3]) eqn:E; [| done].
      apply py_in_2_3 in E. lia.
    - assert (base.size (living_cells (grid e) ∖ {[q]})
              <= base.size (living_cells (grid e)))%nat
        by (apply subseteq_size, subseteq_difference_l; reflexivity).
      destruct (Z.eqb_spec (count_living_neighbors (grid e) q) 3); [lia | done]. }
  split; [exact Hd |].
  apply all_dead_living_cells; [apply after_step_well_formed | exact Hd].
Qed.

Lemma sparse_population_dies_witness :
  all_dead (grid (after_step
                    (GameEngine_init
                       (grid_with (mkGridSize 4 4) [mkPosition 1 1; mkPosition 1 2])
                       example_config))) = true.
Proof.
  apply (proj2 (sparse_population_dies
                  (GameEngine_init
                     (grid_with (mkGridSize 4 4) [mkPosition 1 1; mkPosition 1 2])
                     example_config) (mkPosition 0 0))).
  vm_compute. lia.
Defined.
